(** * capa feature extractors: the dnfile (managed) and vivisect (native) back ends

    A shallow embedding of
      capa/features/extractors/dnfile/extractor.py
      capa/features/extractors/viv/extractor.py
    Python objects that are mutated in place (the [set()] objects held in a
    function handle's [ctx], the scratch [cache] dictionary of the vivisect
    walker) live in an explicit store and are named by locations, so that
    aliasing is visible.  Generators are run in a small monad that records
    what they do, in order: every [set.add] and every [yield]. *)

From stdpp Require Import gmap strings list sorting.

Open Scope Z_scope.

(** ** capa.features.address *)

(** Modelled from the spec: capa/features/address.py is not among the sources;
    the data model gives the four variants, with structural equality. *)
Inductive Address :=
  | NO_ADDRESS
  | AbsoluteVirtualAddress (va : Z)
  | DNTokenAddress (token : Z)
  | DNTokenOffsetAddress (base : Address) (offset : Z).

#[export] Instance Address_eq_dec : EqDecision Address.
Proof. solve_decision. Defined.

Fixpoint Address_encode (a : Address) : gen_tree Z :=
  match a with
  | NO_ADDRESS => GenNode 0 []
  | AbsoluteVirtualAddress va => GenNode 1 [GenLeaf va]
  | DNTokenAddress token => GenNode 2 [GenLeaf token]
  | DNTokenOffsetAddress base offset => GenNode 3 [Address_encode base; GenLeaf offset]
  end.

Fixpoint Address_decode (t : gen_tree Z) : Address :=
  match t with
  | GenNode 1 [GenLeaf va] => AbsoluteVirtualAddress va
  | GenNode 2 [GenLeaf token] => DNTokenAddress token
  | GenNode 3 [base; GenLeaf offset] => DNTokenOffsetAddress (Address_decode base) offset
  | _ => NO_ADDRESS
  end.

#[export] Instance Address_countable : Countable Address.
Proof.
  apply (inj_countable' Address_encode Address_decode).
  induction x as [| | |b IH o]; simpl; [done..|]. by rewrite IH.
Defined.

(** ** Python dictionaries

    A [dict] keeps its keys in insertion order, and [values()] walks them in
    that order; [d[k] = v] on a key already present replaces the value where
    it stands. *)
Section dict.
Context {K V : Type} `{EqDecision K}.

Fixpoint dict_get (d : list (K * V)) (k : K) : option V :=
  match d with
  | [] => None
  | (k', v) :: d' => if decide (k' = k) then Some v else dict_get d' k
  end.

Definition dict_keys (d : list (K * V)) : list K := d.*1.

Definition dict_values (d : list (K * V)) : list V := d.*2.

Definition dict_contains (d : list (K * V)) (k : K) : bool :=
  bool_decide (k ∈ dict_keys d).

Fixpoint dict_setitem (d : list (K * V)) (k : K) (v : V) : list (K * V) :=
  match d with
  | [] => [(k, v)]
  | (k', v') :: d' =>
      if decide (k' = k) then (k', v) :: d' else (k', v') :: dict_setitem d' k v
  end.
End dict.

(** ** The store and the generator monad *)

(** Locations of the store. *)
Abbreviation loc := nat (only parsing).

Inductive Exn := AssertionError | IndexError | KeyError.

Inductive Result (A : Type) :=
  | Ok (a : A)
  | Raise (e : Exn).
Arguments Ok {A} a.
Arguments Raise {A} e.

(** The mutable objects of the two walkers: a [set] of addresses, and a
    dictionary with string keys (the values of the scratch cache are opaque
    to the walker; integers stand for them). *)
Inductive Obj :=
  | OSet (s : gset Address)
  | ODict (d : gmap string Z).

(** What a generator does, as seen from outside: [s.add(a)] on the set at a
    location, and [yield y], with the heap the consumer finds at that moment. *)
Inductive Event (Y : Type) :=
  | EvSetAdd (l : loc) (a : Address)
  | EvYield (y : Y) (h : gmap loc Obj).
Arguments EvSetAdd {Y} l a.
Arguments EvYield {Y} y h.

Record Store (Y : Type) := mkStore {
  heap : gmap loc Obj;
  next_loc : loc;
  trace : list (Event Y)
}.
Arguments mkStore {Y} heap next_loc trace.
Arguments heap {Y} s.
Arguments next_loc {Y} s.
Arguments trace {Y} s.

Definition M (Y A : Type) : Type := Store Y → Result A * Store Y.

Definition ret {Y A} (a : A) : M Y A := λ σ, (Ok a, σ).

Definition bind {Y A B} (m : M Y A) (k : A → M Y B) : M Y B :=
  λ σ, match m σ with
       | (Ok a, σ') => k a σ'
       | (Raise e, σ') => (Raise e, σ')
       end.

Notation "x <- m ;; k" := (bind m (λ x, k))
  (at level 100, m at next level, right associativity,
   format "'[v' x  <-  m  ;; '/' k ']'").
Notation "m ;;; k" := (bind m (λ _, k))
  (at level 100, right associativity, format "'[v' m  ;;; '/' k ']'").

Definition raise {Y A} (e : Exn) : M Y A := λ σ, (Raise e, σ).

Definition assert_ {Y} (b : bool) : M Y unit :=
  if b then ret () else raise AssertionError.

(** Modelled from the spec: capa/features/address.py is not among the sources.
    An absolute address is unsigned: the constructor [AbsoluteVirtualAddress(v)]
    refuses a negative value with an assertion failure. *)
Definition new_AbsoluteVirtualAddress (v : Z) : Result Address :=
  if bool_decide (0 ≤ v) then Ok (AbsoluteVirtualAddress v) else Raise AssertionError.

(** A call that can raise, inside a generator. *)
Definition lift {Y A} (r : Result A) : M Y A := λ σ, (r, σ).

(** [set()] *)
Definition new_set {Y} : M Y loc :=
  λ σ, (Ok (next_loc σ),
        mkStore (<[next_loc σ := OSet ∅]> (heap σ)) (S (next_loc σ)) (trace σ)).

(** [{}] *)
Definition new_dict {Y} : M Y loc :=
  λ σ, (Ok (next_loc σ),
        mkStore (<[next_loc σ := ODict ∅]> (heap σ)) (S (next_loc σ)) (trace σ)).

Definition read_set (h : gmap loc Obj) (l : loc) : gset Address :=
  match h !! l with
  | Some (OSet s) => s
  | _ => ∅
  end.

Definition read_dict (h : gmap loc Obj) (l : loc) : gmap string Z :=
  match h !! l with
  | Some (ODict d) => d
  | _ => ∅
  end.

(** [s.add(a)] *)
Definition set_add {Y} (l : loc) (a : Address) : M Y unit :=
  λ σ, (Ok (),
        mkStore (<[l := OSet ({[a]} ∪ read_set (heap σ) l)]> (heap σ))
                (next_loc σ) (trace σ ++ [EvSetAdd l a])).

(** [d[k] = v] on a dictionary of the store (what a consumer of the
    vivisect handles does with the scratch cache). *)
Definition dict_store (l : loc) (k : string) (v : Z) (h : gmap loc Obj) : gmap loc Obj :=
  <[l := ODict (<[k := v]> (read_dict h l))]> h.

(** [yield y] *)
Definition yield {Y} (y : Y) : M Y unit :=
  λ σ, (Ok (), mkStore (heap σ) (next_loc σ) (trace σ ++ [EvYield y (heap σ)])).

(** [for x in xs: body] *)
Fixpoint for_ {Y A} (xs : list A) (body : A → M Y unit) : M Y unit :=
  match xs with
  | [] => ret ()
  | x :: xs' => body x ;;; for_ xs' body
  end.

(** [yield from xs] *)
Definition yield_from {Y} (xs : list Y) : M Y unit := for_ xs yield.

(** The handles given out by a finished (or failed) run, in order. *)
Definition yielded {Y} (t : list (Event Y)) : list Y :=
  omap (λ e, match e with EvYield y _ => Some y | EvSetAdd _ _ => None end) t.

Definition is_yield {Y} (e : Event Y) : bool :=
  match e with EvYield _ _ => true | EvSetAdd _ _ => false end.

(** ** capa.features.extractors.base_extractor: the handles *)

Module FunctionHandle.
Record t (I C : Type) := mk { address : Address; inner : I; ctx : C }.
Arguments mk {I C} address inner ctx.
Arguments address {I C} t.
Arguments inner {I C} t.
Arguments ctx {I C} t.
End FunctionHandle.

Module BBHandle.
Record t (I : Type) := mk { address : Address; inner : I }.
Arguments mk {I} address inner.
Arguments address {I} t.
Arguments inner {I} t.
End BBHandle.

Module InsnHandle.
Record t (I : Type) := mk { address : Address; inner : I }.
Arguments mk {I} address inner.
Arguments address {I} t.
Arguments inner {I} t.
End InsnHandle.

(** Modelled from the spec: capa/features/common.py is not among the sources;
    a feature is an opaque value that the walkers never inspect. *)
Definition Feature : Type := string.

(** [for x in xs: acc = step(acc, x)], for a loop that threads a local
    variable. *)
Fixpoint foldM {Y A B} (step : B → A → M Y B) (acc : B) (xs : list A) : M Y B :=
  match xs with
  | [] => ret acc
  | x :: xs' => acc' <- step acc x ;; foldM step acc' xs'
  end.

(** ** capa.features.extractors.dnfile.extractor *)

Module Dnfile.

(** dncil.cil.opcode.OpCodes: the four call opcodes the walker names, and
    some of the others; [Other] stands for the rest of the table. *)
Inductive OpCode :=
  | Nop | Jmp | Call | Calli | Ret | Br | Ldstr
  | Callvirt | Newobj | Ldfld | Ldftn
  | Other (code : Z).

#[export] Instance OpCode_eq_dec : EqDecision OpCode.
Proof. solve_decision. Defined.

(** dncil.clr.token.Token; the decoder gives every instruction of the call
    family (operand type InlineMethod) a token as its operand. *)
Module Token.
Record t := mk { value : Z }.
End Token.

Module Instruction.
Record t := mk { offset : Z; opcode : OpCode; operand : Token.t }.
End Instruction.

Module CilMethodBody.
Record t := mk {
    offset : Z;
    header_size : Z;
    instructions : list Instruction.t
  }.
End CilMethodBody.

(** Modelled from the spec: capa/features/extractors/dnfile/types.py is not
    among the sources; a resolved symbol is a [DnType] or a
    [DnUnmanagedMethod], each with its originating token and a qualified
    name. *)
Inductive Symbol :=
  | DnType (token : Z) (name : string)
  | DnUnmanagedMethod (token : Z) (name : string).

Definition token (s : Symbol) : Z :=
  match s with
  | DnType token _ => token
  | DnUnmanagedMethod token _ => token
  end.

(** Modelled from the spec: capa/features/extractors/dnfile/helpers.py is
    not among the sources.  A parsed sample is taken as what its six
    enumerators give, each in the order it gives it. *)
Module dnPE.
Record t := mk {
    managed_imports : list Symbol;
    unmanaged_imports : list Symbol;
    managed_methods : list Symbol;
    fields : list Symbol;
    types : list Symbol;
    managed_method_bodies : list (Z * CilMethodBody.t)
  }.
End dnPE.

Definition get_dotnet_managed_imports (pe : dnPE.t) := dnPE.managed_imports pe.
Definition get_dotnet_unmanaged_imports (pe : dnPE.t) := dnPE.unmanaged_imports pe.
Definition get_dotnet_managed_methods (pe : dnPE.t) := dnPE.managed_methods pe.
Definition get_dotnet_fields (pe : dnPE.t) := dnPE.fields pe.
Definition get_dotnet_types (pe : dnPE.t) := dnPE.types pe.
Definition get_dotnet_managed_method_bodies (pe : dnPE.t) := dnPE.managed_method_bodies pe.

Module DnFileFeatureExtractorCache.
Record t := mk {
    imports : gmap Z Symbol;
    native_imports : gmap Z Symbol;
    methods : gmap Z Symbol;
    fields : gmap Z Symbol;
    types : gmap Z Symbol
  }.

(** [for s in symbols: table[s.token] = s] *)
Definition fill (table : gmap Z Symbol) (symbols : list Symbol) : gmap Z Symbol :=
  foldl (λ table s, <[token s := s]> table) table symbols.

Definition __init__ (pe : dnPE.t) : t :=
  mk (fill ∅ (get_dotnet_managed_imports pe))
     (fill ∅ (get_dotnet_unmanaged_imports pe))
     (fill ∅ (get_dotnet_managed_methods pe))
     (fill ∅ (get_dotnet_fields pe))
     (fill ∅ (get_dotnet_types pe)).

Definition get_import (self : t) (token : Z) : option Symbol := imports self !! token.
Definition get_native_import (self : t) (token : Z) : option Symbol :=
  native_imports self !! token.
Definition get_method (self : t) (token : Z) : option Symbol := methods self !! token.
Definition get_field (self : t) (token : Z) : option Symbol := fields self !! token.
Definition get_type (self : t) (token : Z) : option Symbol := types self !! token.
End DnFileFeatureExtractorCache.

Module DnfileFeatureExtractor.
Record t := mk {
    pe : dnPE.t;
    min_str_len : Z;
    token_cache : DnFileFeatureExtractorCache.t
  }.

Definition __init__ (pe : dnPE.t) (min_str_len : Z) : t :=
  mk pe min_str_len (DnFileFeatureExtractorCache.__init__ pe).

(** The [ctx] dictionary of a function handle.  Its two sets are objects
    of the store; the sample and the token cache are the extractor's own,
    the same for every handle. *)
Module Ctx.
Record t := mk {
    pe : dnPE.t;
    calls_from : loc;
    calls_to : loc;
    cache : DnFileFeatureExtractorCache.t;
    min_str_len : Z
  }.
End Ctx.

Definition FH : Type := FunctionHandle.t CilMethodBody.t Ctx.t.

Definition get_base_address (self : t) : Address := NO_ADDRESS.

(** The body of the first loop of [get_functions]: make the handle of one
    method and enter it in the lookup table. *)
Definition add_method (self : t) (methods : list (Address * FH))
    (item : Z * CilMethodBody.t) : M FH (list (Address * FH)) :=
  let '(token, method) := item in
  calls_from <- new_set ;;
  calls_to <- new_set ;;
  let fh : FH :=
    FunctionHandle.mk (DNTokenAddress token) method
      (Ctx.mk (pe self) calls_from calls_to (token_cache self) (min_str_len self)) in
  assert_ (negb (dict_contains methods (FunctionHandle.address fh))) ;;;
  ret (dict_setitem methods (FunctionHandle.address fh) fh).

Definition is_call (op : OpCode) : bool :=
  bool_decide (op ∈ [Call; Callvirt; Jmp; Newobj]).

(** The body of the inner loop of the call-graph pass. *)
Definition record_call (methods : list (Address * FH)) (fh : FH)
    (insn : Instruction.t) : M FH unit :=
  if negb (is_call (Instruction.opcode insn)) then ret ()
  else
    let address := DNTokenAddress (Token.value (Instruction.operand insn)) in
    match dict_get methods address with
    | Some dest => set_add (Ctx.calls_to (FunctionHandle.ctx dest)) (FunctionHandle.address fh)
    | None => ret ()
    end ;;;
    set_add (Ctx.calls_from (FunctionHandle.ctx fh)) address.

(** "create a method lookup table" *)
Definition create_method_lookup_table (self : t) : M FH (list (Address * FH)) :=
  foldM (add_method self) [] (get_dotnet_managed_method_bodies (pe self)).

(** "calculate unique calls to/from each method" *)
Definition calculate_calls (methods : list (Address * FH)) : M FH unit :=
  for_ (dict_values methods) (λ fh,
    for_ (CilMethodBody.instructions (FunctionHandle.inner fh)) (record_call methods fh)).

(** The generator: the two loops run before the first handle is given out. *)
Definition get_functions (self : t) : M FH unit :=
  methods <- create_method_lookup_table self ;;
  calculate_calls methods ;;;
  yield_from (dict_values methods).

(** The three walkers below touch no shared object; the sequence a
    generator yields is given as a list. *)
Definition get_basic_blocks (f : FH) : list (BBHandle.t CilMethodBody.t) :=
  [BBHandle.mk (FunctionHandle.address f) (FunctionHandle.inner f)].

Definition extract_basic_block_features (fh : FH) (bbh : BBHandle.t CilMethodBody.t)
  : list (Feature * Address) := [].

Definition get_instructions (fh : FH) (bbh : BBHandle.t CilMethodBody.t)
    : list (InsnHandle.t Instruction.t) :=
  fmap (λ insn,
         InsnHandle.mk
           (DNTokenOffsetAddress (BBHandle.address bbh)
              (Instruction.offset insn
               - (CilMethodBody.offset (FunctionHandle.inner fh)
                  + CilMethodBody.header_size (FunctionHandle.inner fh))))
           insn)
      (CilMethodBody.instructions (BBHandle.inner bbh)).
End DnfileFeatureExtractor.

End Dnfile.

(** ** capa.features.extractors.viv.extractor *)

Module Viv.

(** An instruction and a basic block as viv_utils gives them. *)
Module Insn.
Record t := mk { va : Z; mnem : string }.
End Insn.

Module BasicBlock.
Record t := mk { va : Z; instructions : list Insn.t }.
End BasicBlock.

(** The vivisect workspace: [filemeta] is a dictionary from file name to
    that file's metadata (itself a dictionary), [getFunctions()] the list of
    function addresses, in no particular order. *)
Module Workspace.
Record t := mk {
    filemeta : list (string * gmap string Z);
    functions : list Z;
    blocks : Z → list BasicBlock.t
  }.
Definition getFunctions (vw : t) : list Z := functions vw.
End Workspace.

(** [viv_utils.Function(vw, va)] *)
Module Function.
Record t := mk { vw : Workspace.t; va : Z }.
Definition basic_blocks (f : t) : list BasicBlock.t := Workspace.blocks (vw f) (va f).
End Function.

Module VivisectFeatureExtractor.
Record t := mk { vw : Workspace.t; min_str_len : Z }.

Module Ctx.
Record t := mk { cache : loc; min_str_len : Z }.
End Ctx.

Definition FH : Type := FunctionHandle.t Function.t Ctx.t.

Definition get_base_address (self : t) : Result Address :=
  match dict_values (Workspace.filemeta (vw self)) !! 0%nat with
  | None => Raise IndexError
  | Some meta =>
      match meta !! "imagebase"%string with
      | None => Raise KeyError
      | Some imagebase => new_AbsoluteVirtualAddress imagebase
      end
  end.

(** The generator; [sorted] on a list of integers is the merge sort for [≤]. *)
Definition get_functions (self : t) : M FH unit :=
  cache <- new_dict ;;
  for_ (merge_sort Z.le (Workspace.getFunctions (vw self))) (λ va,
    address <- lift (new_AbsoluteVirtualAddress va) ;;
    yield (FunctionHandle.mk address (Function.mk (vw self) va)
             (Ctx.mk cache (min_str_len self)))).

(** The two walkers below touch no shared object; the sequence each yields
    is given as a list, for blocks and instructions at the addresses the
    disassembler reports, none of which is negative. *)
Definition get_basic_blocks (fh : FH) : list (BBHandle.t BasicBlock.t) :=
  fmap (λ bb, BBHandle.mk (AbsoluteVirtualAddress (BasicBlock.va bb)) bb)
      (Function.basic_blocks (FunctionHandle.inner fh)).

Definition get_instructions (fh : FH) (bbh : BBHandle.t BasicBlock.t)
    : list (InsnHandle.t Insn.t) :=
  fmap (λ insn, InsnHandle.mk (AbsoluteVirtualAddress (Insn.va insn)) insn)
      (BasicBlock.instructions (BBHandle.inner bbh)).
End VivisectFeatureExtractor.

End Viv.


(** * Specification-level definitions used by the proofs *)

Import Dnfile.
Import DnfileFeatureExtractor.

(** The handle that [add_method] makes for a method when the next free
    location of the store is [n]. *)
Definition handle_at (self : DnfileFeatureExtractor.t) (n : loc)
    (item : Z * CilMethodBody.t) : FH :=
  FunctionHandle.mk (DNTokenAddress item.1) item.2
    (Ctx.mk (pe self) n (S n) (token_cache self) (min_str_len self)).

Fixpoint handles_from (self : DnfileFeatureExtractor.t) (n : loc)
    (bodies : list (Z * CilMethodBody.t)) : list FH :=
  match bodies with
  | [] => []
  | item :: rest => handle_at self n item :: handles_from self (S (S n)) rest
  end.

(** The lookup table that holds the handles [fhs], in their order. *)
Definition table_of (fhs : list FH) : list (Address * FH) :=
  fmap (λ fh, (FunctionHandle.address fh, fh)) fhs.

(** The locations of the call-edge sets of the handles [fhs]. *)
Definition set_locs (fhs : list FH) : list loc :=
  fhs ≫= λ fh, [Ctx.calls_from (FunctionHandle.ctx fh); Ctx.calls_to (FunctionHandle.ctx fh)].

(** The address an instruction of the call family names. *)
Definition target (insn : Instruction.t) : Address :=
  DNTokenAddress (Token.value (Instruction.operand insn)).

(** The call edges (caller, target) that the instructions [insns] of the
    method at [caller] give, and those of a list of handles. *)
Definition edges_of (caller : Address) (insns : list Instruction.t) : list (Address * Address) :=
  omap (λ insn, if is_call (Instruction.opcode insn) then Some (caller, target insn) else None)
       insns.

Definition call_edges (fhs : list FH) : list (Address * Address) :=
  fhs ≫= λ fh, edges_of (FunctionHandle.address fh)
                  (CilMethodBody.instructions (FunctionHandle.inner fh)).

(** The call-edge sets of the handles [fhs] in the heap [h] hold exactly the
    edges [E]. *)
Definition graph_is (fhs : list FH) (E : list (Address * Address)) (h : gmap loc Obj) : Prop :=
  ∀ fh, fh ∈ fhs →
    (∀ a, a ∈ read_set h (Ctx.calls_from (FunctionHandle.ctx fh))
          ↔ (FunctionHandle.address fh, a) ∈ E)
    ∧ (∀ a, a ∈ read_set h (Ctx.calls_to (FunctionHandle.ctx fh))
          ↔ (a, FunctionHandle.address fh) ∈ E).

(** The method [m] has an instruction of the call family whose operand is
    the token at address [a]. *)
Definition calls (m : FH) (a : Address) : Prop :=
  ∃ insn, insn ∈ CilMethodBody.instructions (FunctionHandle.inner m)
          ∧ Instruction.opcode insn ∈ [Call; Callvirt; Jmp; Newobj]
          ∧ DNTokenAddress (Token.value (Instruction.operand insn)) = a.

(** What the call-graph pass over the handles [fhs] keeps true from the store
    [σ0] it starts in: the sets hold the edges [E] met so far, nothing is
    allocated, only [add]s are logged, and what was added to a set is still
    in it. *)
Definition pass_inv (fhs : list FH) (σ0 : Store FH) (E : list (Address * Address))
    (σ : Store FH) : Prop :=
  graph_is fhs E (heap σ)
  ∧ next_loc σ = next_loc σ0
  ∧ ∃ adds, trace σ = trace σ0 ++ adds
            ∧ Forall (λ e, is_yield e = false) adds
            ∧ ∀ l a, EvSetAdd l a ∈ adds → a ∈ read_set (heap σ) l.

(** ** Samples used as concrete inputs *)

(** Method A (token 0x06000001) calls method B (token 0x06000002) once and
    an imported member (token 0x0A000001) once; B calls itself. *)
Definition method_A : CilMethodBody.t :=
  CilMethodBody.mk 0x2050 12
    [Instruction.mk 0x205c Nop (Token.mk 0);
     Instruction.mk 0x205d Call (Token.mk 0x06000002);
     Instruction.mk 0x2062 Callvirt (Token.mk 0x0A000001);
     Instruction.mk 0x2067 Ret (Token.mk 0)].

Definition method_B : CilMethodBody.t :=
  CilMethodBody.mk 0x2070 1
    [Instruction.mk 0x2071 Call (Token.mk 0x06000002);
     Instruction.mk 0x2076 Ret (Token.mk 0)].

Definition scenario : DnfileFeatureExtractor.t :=
  DnfileFeatureExtractor.__init__
    (dnPE.mk [DnType 0x0A000001 "System.Console::WriteLine"] [] [] [] []
       [(0x06000001, method_A); (0x06000002, method_B)]) 4.

(** Two rows of the managed-import table with one token. *)
Definition duplicate_imports : dnPE.t :=
  dnPE.mk [DnType 0x0A000001 "System.IO.File::ReadAllBytes";
           DnType 0x0A000001 "System.IO.File::Delete"] [] [] [] [] [].

(** A workspace with one file and two functions of one block each, listed
    with the higher address first. *)
Definition native_sample : Viv.VivisectFeatureExtractor.t :=
  Viv.VivisectFeatureExtractor.mk
    (Viv.Workspace.mk
       [("sample.exe"%string, {["imagebase"%string := 0x400000]})]
       [0x402000; 0x401000]
       (λ va, [Viv.BasicBlock.mk va [Viv.Insn.mk va "push"; Viv.Insn.mk (va + 1) "ret"]]))
    4.

(** The handle the native walker makes for the function at [va] when its
    scratch cache is at location [n]. *)
Definition native_handle (self : Viv.VivisectFeatureExtractor.t) (n : loc) (va : Z)
    : Viv.VivisectFeatureExtractor.FH :=
  FunctionHandle.mk (AbsoluteVirtualAddress va)
    (Viv.Function.mk (Viv.VivisectFeatureExtractor.vw self) va)
    (Viv.VivisectFeatureExtractor.Ctx.mk n (Viv.VivisectFeatureExtractor.min_str_len self)).

(** The outcome of a token lookup in a table filled from [symbols]: a symbol
    of the table that carries the token, or nothing when no symbol does. *)
Definition lookup_outcome (symbols : list Symbol) (tok : Z) (r : option Symbol) : Prop :=
  match r with
  | Some s => s ∈ symbols ∧ token s = tok
  | None => tok ∉ token <$> symbols
  end.

Definition no_yield {Y} (t : list (Event Y)) : Prop :=
  Forall (λ e, is_yield e = false) t.

(** ** The five tables of the token cache, by category *)

#[export] Instance Symbol_eq_dec : EqDecision Symbol.
Proof. solve_decision. Defined.

Inductive Category :=
  | CatImports | CatNativeImports | CatMethods | CatFields | CatTypes.

(** What the sample enumerates for a category. *)
Definition enumerate (pe : dnPE.t) (c : Category) : list Symbol :=
  match c with
  | CatImports => get_dotnet_managed_imports pe
  | CatNativeImports => get_dotnet_unmanaged_imports pe
  | CatMethods => get_dotnet_managed_methods pe
  | CatFields => get_dotnet_fields pe
  | CatTypes => get_dotnet_types pe
  end.

(** The table of the cache for a category, and its lookup method. *)
Definition table (cache : DnFileFeatureExtractorCache.t) (c : Category) : gmap Z Symbol :=
  match c with
  | CatImports => DnFileFeatureExtractorCache.imports cache
  | CatNativeImports => DnFileFeatureExtractorCache.native_imports cache
  | CatMethods => DnFileFeatureExtractorCache.methods cache
  | CatFields => DnFileFeatureExtractorCache.fields cache
  | CatTypes => DnFileFeatureExtractorCache.types cache
  end.

Definition lookup_in (cache : DnFileFeatureExtractorCache.t) (c : Category) (tok : Z)
    : option Symbol :=
  match c with
  | CatImports => DnFileFeatureExtractorCache.get_import cache tok
  | CatNativeImports => DnFileFeatureExtractorCache.get_native_import cache tok
  | CatMethods => DnFileFeatureExtractorCache.get_method cache tok
  | CatFields => DnFileFeatureExtractorCache.get_field cache tok
  | CatTypes => DnFileFeatureExtractorCache.get_type cache tok
  end.

(** How many times the call-graph pass calls [add] for one instruction, when
    [tokens] are the tokens of the method bodies. *)
Definition adds_of (tokens : list Z) (insn : Instruction.t) : nat :=
  if is_call (Instruction.opcode insn)
  then if bool_decide (Token.value (Instruction.operand insn) ∈ tokens) then 2%nat else 1%nat
  else 0%nat.


(** The [add]s of the call-graph pass for one instruction of the method [m],
    when [fhs] are the handles of the table: for an instruction of the call
    family, one on the [calls_to] set of the method the operand names, if
    there is one, and then one on the [calls_from] set of [m]. *)
Definition adds_for (fhs : list FH) (m : FH) (insn : Instruction.t) : list (Event FH) :=
  if is_call (Instruction.opcode insn)
  then ((λ callee, EvSetAdd (Ctx.calls_to (FunctionHandle.ctx callee)) (FunctionHandle.address m))
          <$> filter (λ callee, FunctionHandle.address callee = target insn) fhs)
       ++ [EvSetAdd (Ctx.calls_from (FunctionHandle.ctx m)) (target insn)]
  else [].

(** A sample with several rows, under distinct tokens, in each table of the
    token cache. *)
Definition several_of_each : dnPE.t :=
  dnPE.mk [DnType 0x0A000001 "System.Console::WriteLine";
           DnType 0x0A000002 "System.IO.File::ReadAllBytes";
           DnType 0x0A000003 "System.IO.File::Delete"]
          [DnUnmanagedMethod 0x06000003 "kernel32.CreateFileA";
           DnUnmanagedMethod 0x06000004 "kernel32.WriteFile"]
          [DnType 0x06000001 "Program::Main"; DnType 0x06000002 "Program::Run"]
          [DnType 0x04000001 "Program::counter"; DnType 0x04000002 "Program::name"]
          [DnType 0x02000002 "Program"; DnType 0x02000003 "Helper"]
          [(0x06000001, method_A); (0x06000002, method_B)].

(** A workspace whose function list holds a negative address. *)
Definition native_sample_negative : Viv.VivisectFeatureExtractor.t :=
  Viv.VivisectFeatureExtractor.mk
    (Viv.Workspace.mk
       [("sample.exe"%string, {["imagebase"%string := -4096]})]
       [0x401000; -1]
       (λ va, []))
    4.

(** Objects below [n] are left as they were, in a store whose next free
    location is at least [n]. *)
Definition keeps_below {Y} (n : loc) : relation (Store Y) :=
  λ σ σ', (n ≤ next_loc σ)%nat →
          (n ≤ next_loc σ')%nat ∧ ∀ l, (l < n)%nat → heap σ' !! l = heap σ !! l.

(** Objects outside [L] are left as they were. *)
Definition keeps_outside {Y} (L : list loc) : relation (Store Y) :=
  λ σ σ', ∀ l, l ∉ L → heap σ' !! l = heap σ !! l.

(** * Facts about dictionaries *)

Section dict_facts.
Context {K V : Type} `{EqDecision K}.
Implicit Types (d : list (K * V)) (k : K) (v : V).

Lemma dict_get_None d k : dict_get d k = None ↔ k ∉ dict_keys d.
Proof.
  unfold dict_keys. induction d as [|[k' v'] d IH]; simpl.
  - split; [intros _; apply not_elem_of_nil | done].
  - rewrite not_elem_of_cons. destruct (decide (k' = k)) as [->|Hne].
    + split; [done | intros [? _]; done].
    + rewrite IH. split; [intros ?; split; [congruence | done] | intros [_ ?]; done].
Qed.

Lemma dict_get_Some_elem d k v : dict_get d k = Some v → (k, v) ∈ d.
Proof.
  induction d as [|[k' v'] d IH]; simpl; [done|].
  destruct (decide (k' = k)) as [->|Hne].
  - intros [= ->]. apply elem_of_cons; by left.
  - intros Hg. apply elem_of_cons; right; auto.
Qed.

Lemma dict_get_NoDup d k v : NoDup (dict_keys d) → (k, v) ∈ d → dict_get d k = Some v.
Proof.
  unfold dict_keys. induction d as [|[k' v'] d IH]; simpl.
  - intros _ Hin. by apply elem_of_nil in Hin.
  - rewrite NoDup_cons. intros [Hnotin Hnd] Hin.
    apply elem_of_cons in Hin as [[= -> ->]|Hin].
    + by rewrite decide_True.
    + destruct (decide (k' = k)) as [->|Hne]; [|by apply IH].
      exfalso. apply Hnotin. apply list_elem_of_fmap. by exists (k, v).
Qed.

Lemma dict_setitem_fresh d k v : k ∉ dict_keys d → dict_setitem d k v = d ++ [(k, v)].
Proof.
  unfold dict_keys. induction d as [|[k' v'] d IH]; simpl; [done|].
  rewrite not_elem_of_cons. intros [Hne Hnotin].
  rewrite decide_False by congruence. by rewrite IH.
Qed.

Lemma dict_contains_true d k : dict_contains d k = true ↔ k ∈ dict_keys d.
Proof. unfold dict_contains. by rewrite bool_decide_eq_true. Qed.
End dict_facts.

(** * Facts about the store and the loops *)

Lemma read_set_insert (h : gmap loc Obj) (l l' : loc) (s : gset Address) :
  read_set (<[l := OSet s]> h) l' = if decide (l = l') then s else read_set h l'.
Proof.
  unfold read_set. destruct (decide (l = l')) as [->|Hne].
  - by rewrite lookup_insert_eq.
  - by rewrite lookup_insert_ne.
Qed.

Lemma elem_of_set_add (h : gmap loc Obj) (l l' : loc) (a x : Address) :
  x ∈ read_set (<[l := OSet ({[a]} ∪ read_set h l)]> h) l'
  ↔ (l' = l ∧ x = a) ∨ x ∈ read_set h l'.
Proof.
  rewrite read_set_insert. destruct (decide (l = l')) as [->|Hne].
  - rewrite elem_of_union, elem_of_singleton. split.
    + intros [->|?]; [by left | by right].
    + intros [[_ ->]|?]; [by left | by right].
  - split; [by right | by intros [[-> _]|?]].
Qed.

Lemma no_yield_app {Y} (t1 t2 : list (Event Y)) :
  no_yield t1 → no_yield t2 → no_yield (t1 ++ t2).
Proof. unfold no_yield. intros. by apply Forall_app. Qed.

Lemma yielded_app {Y} (t1 t2 : list (Event Y)) :
  yielded (t1 ++ t2) = yielded t1 ++ yielded t2.
Proof. unfold yielded. apply omap_app. Qed.

Lemma yielded_no_yield {Y} (t : list (Event Y)) : no_yield t → yielded t = [].
Proof.
  unfold no_yield, yielded. induction 1 as [|e t He _ IH]; [done|].
  destruct e; simpl in *; [done | discriminate].
Qed.

Lemma yielded_yields {Y} (h : gmap loc Obj) (ys : list Y) :
  yielded (fmap (λ y, EvYield y h) ys) = ys.
Proof. induction ys as [|y ys IH]; [done|]. cbn. by f_equal. Qed.

Lemma yielded_yields_fmap {Y A} (f : A → Y) (h : gmap loc Obj) (xs : list A) :
  yielded ((λ x, EvYield (f x) h) <$> xs) = f <$> xs.
Proof. induction xs as [|x xs IH]; [done|]. cbn. by f_equal. Qed.

(** A loop whose body cannot fail keeps an invariant that is indexed by the
    items already visited. *)
Lemma for_inv {Y A} (I : list A → Store Y → Prop) (all : list A) (body : A → M Y unit) :
  (∀ pre x post σ, all = pre ++ x :: post → I pre σ →
     ∃ σ', body x σ = (Ok (), σ') ∧ I (pre ++ [x]) σ') →
  ∀ xs pre σ, all = pre ++ xs → I pre σ →
     ∃ σ', for_ xs body σ = (Ok (), σ') ∧ I all σ'.
Proof.
  intros Hstep. induction xs as [|x xs IH]; intros pre σ Hall HI.
  - exists σ. rewrite app_nil_r in Hall. by subst.
  - destruct (Hstep pre x xs σ Hall HI) as (σ1 & Hrun & HI1).
    simpl. unfold bind. rewrite Hrun.
    apply (IH (pre ++ [x])); [|done]. by rewrite <- app_assoc.
Qed.

Lemma yield_from_run {Y} (ys : list Y) (σ : Store Y) :
  yield_from ys σ
  = (Ok (), mkStore (heap σ) (next_loc σ) (trace σ ++ fmap (λ y, EvYield y (heap σ)) ys)).
Proof.
  unfold yield_from. revert σ. induction ys as [|y ys IH]; intros [h n t]; simpl.
  - unfold ret. by rewrite app_nil_r.
  - unfold bind, yield. simpl. rewrite IH. simpl. by rewrite <- app_assoc.
Qed.

(** * The first loop of the managed function walker *)

Lemma add_method_fresh self (acc : list (Address * FH)) item (σ : Store FH) :
  DNTokenAddress item.1 ∉ dict_keys acc →
  add_method self acc item σ
  = (Ok (acc ++ table_of [handle_at self (next_loc σ) item]),
     mkStore (<[S (next_loc σ) := OSet ∅]> (<[next_loc σ := OSet ∅]> (heap σ)))
             (S (S (next_loc σ))) (trace σ)).
Proof.
  destruct item as [token method]. intros Hfresh.
  unfold add_method, bind, new_set, assert_. simpl.
  assert (dict_contains acc (DNTokenAddress token) = false) as ->.
  { apply not_true_iff_false. by rewrite dict_contains_true. }
  simpl. unfold ret. by rewrite dict_setitem_fresh.
Qed.

Lemma add_method_collision self (acc : list (Address * FH)) item (σ : Store FH) :
  DNTokenAddress item.1 ∈ dict_keys acc →
  ∃ σ', add_method self acc item σ = (Raise AssertionError, σ') ∧ trace σ' = trace σ.
Proof.
  destruct item as [token method]. intros Hin.
  unfold add_method, bind, new_set, assert_. simpl.
  assert (dict_contains acc (DNTokenAddress token) = true) as ->.
  { by rewrite dict_contains_true. }
  simpl. unfold raise. eauto.
Qed.

Lemma table_of_keys (fhs : list FH) : dict_keys (table_of fhs) = fmap FunctionHandle.address fhs.
Proof. unfold dict_keys, table_of. rewrite <- list_fmap_compose. done. Qed.

Lemma table_of_values (fhs : list FH) : dict_values (table_of fhs) = fhs.
Proof.
  unfold dict_values, table_of. rewrite <- list_fmap_compose.
  induction fhs as [|fh fhs IH]; [done|]. cbn. by f_equal.
Qed.

Lemma table_of_app (fhs1 fhs2 : list FH) : table_of (fhs1 ++ fhs2) = table_of fhs1 ++ table_of fhs2.
Proof. unfold table_of. apply map_app. Qed.

Lemma handles_from_address self n bodies :
  fmap FunctionHandle.address (handles_from self n bodies) = fmap (λ item, DNTokenAddress item.1) bodies.
Proof. revert n. induction bodies as [|item rest IH]; intros n; simpl; [done | by rewrite IH]. Qed.

Lemma handles_from_locs self n bodies :
  set_locs (handles_from self n bodies) = seq n (2 * length bodies).
Proof.
  unfold set_locs. revert n. induction bodies as [|item rest IH]; intros n; [done|].
  simpl. rewrite IH. replace (length rest + S (length rest + 0))%nat
    with (S (2 * length rest))%nat by lia. done.
Qed.

Lemma DNTokenAddress_NoDup (tokens : list Z) :
  NoDup tokens → NoDup (fmap DNTokenAddress tokens).
Proof.
  assert (Inj (=) (=) DNTokenAddress) by (by intros ?? [= ->]).
  by apply NoDup_fmap_2.
Qed.

(** With pairwise distinct tokens the first loop succeeds: the table holds
    one handle per method, in the order of the enumeration, each with two
    sets of its own that are empty; nothing is logged. *)
Lemma create_table_ok self bodies :
  ∀ (acc : list FH) (σ : Store FH),
    NoDup (bodies.*1) →
    (∀ token, token ∈ bodies.*1 → DNTokenAddress token ∉ fmap FunctionHandle.address acc) →
    ∃ σ', foldM (add_method self) (table_of acc) bodies σ
          = (Ok (table_of (acc ++ handles_from self (next_loc σ) bodies)), σ')
      ∧ trace σ' = trace σ
      ∧ next_loc σ' = (next_loc σ + 2 * length bodies)%nat
      ∧ (∀ l, (next_loc σ ≤ l < next_loc σ')%nat → heap σ' !! l = Some (OSet ∅))
      ∧ (∀ l, (l < next_loc σ)%nat → heap σ' !! l = heap σ !! l).
Proof.
  induction bodies as [|item rest IH]; intros acc σ Hnd Hfresh.
  - exists σ. simpl. unfold ret. rewrite app_nil_r.
    repeat split; [lia | intros; lia].
  - simpl in Hnd. apply NoDup_cons in Hnd as [Hnotin Hnd].
    simpl. unfold bind. rewrite add_method_fresh.
    2:{ rewrite table_of_keys. apply Hfresh. simpl. apply elem_of_cons; by left. }
    rewrite <- table_of_app.
    edestruct (IH (acc ++ [handle_at self (next_loc σ) item])) as (σ' & Hrun & Ht & Hn & Hnew & Hold);
      [done | |].
    { intros token Hin. rewrite map_app. simpl. rewrite elem_of_app, list_elem_of_singleton.
      intros [Hacc|[= Heq]].
      - revert Hacc. apply Hfresh. simpl. apply elem_of_cons; by right.
      - apply Hnotin. by rewrite <- Heq. }
    exists σ'. rewrite Hrun. simpl in *. rewrite <- app_assoc. simpl.
    split; [done|]. split; [done|]. split; [lia|]. split.
    + intros l Hl. destruct (decide (l < S (S (next_loc σ)))%nat) as [Hlt|Hge].
      * rewrite Hold by done.
        destruct (decide (l = S (next_loc σ))) as [->|Hne]; [by rewrite lookup_insert_eq|].
        rewrite lookup_insert_ne by done.
        assert (l = next_loc σ) as -> by lia. by rewrite lookup_insert_eq.
      * apply Hnew. lia.
    + intros l Hl. rewrite Hold by lia.
      rewrite !lookup_insert_ne by lia. done.
Qed.

Lemma add_method_trace self (acc : list (Address * FH)) item (σ : Store FH) :
  trace (add_method self acc item σ).2 = trace σ.
Proof.
  destruct item as [token method].
  unfold add_method, bind, new_set, assert_. simpl.
  by destruct (dict_contains _ _).
Qed.

(** The first loop logs nothing, whether it succeeds or not. *)
Lemma create_table_trace self bodies :
  ∀ (acc : list (Address * FH)) (σ : Store FH),
    trace (foldM (add_method self) acc bodies σ).2 = trace σ.
Proof.
  induction bodies as [|item rest IH]; intros acc σ; [done|].
  pose proof (add_method_trace self acc item σ) as Hstep.
  simpl. unfold bind.
  destruct (add_method self acc item σ) as [[acc'|e] σ1]; simpl in *; [|done].
  by rewrite IH.
Qed.

(** A token met twice stops the first loop with an assertion failure. *)
Lemma create_table_collision self bodies :
  ∀ (acc : list FH) (σ : Store FH),
    ¬ (NoDup (bodies.*1)
       ∧ ∀ token, token ∈ bodies.*1 → DNTokenAddress token ∉ fmap FunctionHandle.address acc) →
    (foldM (add_method self) (table_of acc) bodies σ).1 = Raise AssertionError.
Proof.
  induction bodies as [|item rest IH]; intros acc σ Hbad.
  - exfalso. apply Hbad. split; [constructor | intros ? Hin; by apply elem_of_nil in Hin].
  - simpl. unfold bind.
    destruct (decide (DNTokenAddress item.1 ∈ fmap FunctionHandle.address acc)) as [Hin|Hnotin].
    + destruct (add_method_collision self (table_of acc) item σ) as (σ' & -> & _);
        [by rewrite table_of_keys | done].
    + rewrite add_method_fresh by (by rewrite table_of_keys).
      rewrite <- table_of_app. apply IH. intros [Hnd Hfresh]. apply Hbad. split.
      * simpl. apply NoDup_cons. split; [|done].
        intros Hin. apply (Hfresh _ Hin). rewrite map_app. apply elem_of_app; right.
        simpl. apply list_elem_of_singleton. done.
      * intros token Hin. simpl in Hin. apply elem_of_cons in Hin as [->|Hin]; [done|].
        intros Hacc. apply (Hfresh _ Hin). rewrite map_app. apply elem_of_app; by left.
Qed.

(** * The call-graph pass *)

Lemma NoDup_fmap_eq {A B} (f : A → B) (l : list A) x y :
  NoDup (f <$> l) → x ∈ l → y ∈ l → f x = f y → x = y.
Proof.
  induction l as [|z l IH]; csimpl; intros Hnd Hx Hy Heq.
  - by apply elem_of_nil in Hx.
  - apply NoDup_cons in Hnd as [Hz Hnd].
    apply elem_of_cons in Hx as [->|Hx]; apply elem_of_cons in Hy as [->|Hy]; [done| | |by apply IH].
    + exfalso. apply Hz. rewrite Heq. by apply list_elem_of_fmap_2.
    + exfalso. apply Hz. rewrite <- Heq. by apply list_elem_of_fmap_2.
Qed.

Lemma set_locs_elem (fhs : list FH) fh :
  fh ∈ fhs →
  Ctx.calls_from (FunctionHandle.ctx fh) ∈ set_locs fhs
  ∧ Ctx.calls_to (FunctionHandle.ctx fh) ∈ set_locs fhs.
Proof.
  intros Hin. unfold set_locs. split; apply list_elem_of_bind; exists fh; (split; [|done]).
  - apply elem_of_cons; by left.
  - apply elem_of_cons; right. apply elem_of_cons; by left.
Qed.

(** Distinct handles have distinct sets, and no set serves both as a
    [calls_from] and as a [calls_to]. *)
Lemma set_locs_distinct (fhs : list FH) :
  NoDup (set_locs fhs) →
  ∀ fh fh', fh ∈ fhs → fh' ∈ fhs →
    Ctx.calls_from (FunctionHandle.ctx fh) ≠ Ctx.calls_to (FunctionHandle.ctx fh')
    ∧ (Ctx.calls_from (FunctionHandle.ctx fh) = Ctx.calls_from (FunctionHandle.ctx fh') → fh = fh')
    ∧ (Ctx.calls_to (FunctionHandle.ctx fh) = Ctx.calls_to (FunctionHandle.ctx fh') → fh = fh').
Proof.
  induction fhs as [|x fhs IH]; intros Hnd fh fh' Hfh Hfh'.
  - by apply elem_of_nil in Hfh.
  - change (set_locs (x :: fhs))
      with (Ctx.calls_from (FunctionHandle.ctx x)
            :: Ctx.calls_to (FunctionHandle.ctx x) :: set_locs fhs) in Hnd.
    apply NoDup_cons in Hnd as [Hcf Hnd]. apply NoDup_cons in Hnd as [Hct Hnd].
    rewrite not_elem_of_cons in Hcf. destruct Hcf as [Hne Hcf].
    apply elem_of_cons in Hfh as [->|Hfh]; apply elem_of_cons in Hfh' as [->|Hfh'].
    + done.
    + destruct (set_locs_elem fhs fh' Hfh') as [H1 H2].
      repeat split; intros Heq; exfalso; [apply Hcf | apply Hcf | apply Hct]; by rewrite Heq.
    + destruct (set_locs_elem fhs fh Hfh) as [H1 H2].
      repeat split; intros Heq; exfalso; [apply Hct | apply Hcf | apply Hct]; by rewrite <- ?Heq.
    + by apply IH.
Qed.

Lemma edges_of_app caller insns1 insns2 :
  edges_of caller (insns1 ++ insns2) = edges_of caller insns1 ++ edges_of caller insns2.
Proof. unfold edges_of. apply omap_app. Qed.

Lemma call_edges_snoc (fhs : list FH) fh :
  call_edges (fhs ++ [fh])
  = call_edges fhs ++ edges_of (FunctionHandle.address fh)
                        (CilMethodBody.instructions (FunctionHandle.inner fh)).
Proof. unfold call_edges. rewrite bind_app. simpl. by rewrite app_nil_r. Qed.

Lemma elem_of_edges_of caller insns c a :
  (c, a) ∈ edges_of caller insns
  ↔ c = caller ∧ ∃ insn, insn ∈ insns ∧ is_call (Instruction.opcode insn) = true ∧ target insn = a.
Proof.
  unfold edges_of. rewrite list_elem_of_omap. split.
  - intros (insn & Hin & Hsome). destruct (is_call _) eqn:Hcall; [|done].
    injection Hsome as <- <-. eauto.
  - intros (-> & insn & Hin & Hcall & <-). exists insn. by rewrite Hcall.
Qed.

Lemma elem_of_call_edges (fhs : list FH) c a :
  (c, a) ∈ call_edges fhs
  ↔ ∃ fh insn, fh ∈ fhs ∧ FunctionHandle.address fh = c
      ∧ insn ∈ CilMethodBody.instructions (FunctionHandle.inner fh)
      ∧ is_call (Instruction.opcode insn) = true ∧ target insn = a.
Proof.
  unfold call_edges. rewrite list_elem_of_bind. split.
  - intros (fh & Hedge & Hfh). apply elem_of_edges_of in Hedge as (-> & insn & ? & ? & ?).
    by exists fh, insn.
  - intros (fh & insn & Hfh & <- & ? & ? & ?). exists fh. split; [|done].
    apply elem_of_edges_of. eauto.
Qed.

Section call_graph.
Variable fhs : list FH.
Hypothesis Haddr : NoDup (FunctionHandle.address <$> fhs).
Hypothesis Hlocs : NoDup (set_locs fhs).

Lemma table_get_elem fh : fh ∈ fhs → dict_get (table_of fhs) (FunctionHandle.address fh) = Some fh.
Proof.
  intros Hin. apply dict_get_NoDup; [by rewrite table_of_keys|].
  unfold table_of. by apply (list_elem_of_fmap_2 (λ fh, (FunctionHandle.address fh, fh))).
Qed.

Lemma table_get_Some a dest :
  dict_get (table_of fhs) a = Some dest → dest ∈ fhs ∧ FunctionHandle.address dest = a.
Proof.
  intros Hget. apply dict_get_Some_elem in Hget. unfold table_of in Hget.
  apply list_elem_of_fmap in Hget as (fh & [= -> ->] & Hin). done.
Qed.

Lemma table_get_None a fh :
  dict_get (table_of fhs) a = None → fh ∈ fhs → FunctionHandle.address fh ≠ a.
Proof.
  intros Hget Hin <-. apply dict_get_None in Hget. apply Hget.
  rewrite table_of_keys. by apply list_elem_of_fmap_2.
Qed.

Lemma record_call_step σ0 E fh insn σ :
  fh ∈ fhs → pass_inv fhs σ0 E σ →
  ∃ σ', record_call (table_of fhs) fh insn σ = (Ok (), σ')
        ∧ pass_inv fhs σ0 (E ++ edges_of (FunctionHandle.address fh) [insn]) σ'.
Proof.
  intros Hfh (Hg & Hn & adds & Ht & Hadds & Hlog).
  unfold record_call, edges_of. simpl.
  destruct (is_call (Instruction.opcode insn)) eqn:Hcall; simpl.
  2:{ exists σ. rewrite app_nil_r. unfold ret. split; [done|]. split; [done|]. eauto. }
  fold (target insn).
  assert (∀ fh', fh' ∈ fhs → FunctionHandle.address fh' = FunctionHandle.address fh → fh' = fh)
    as Hinj by (intros; by apply (NoDup_fmap_eq FunctionHandle.address fhs)).
  destruct (dict_get (table_of fhs) (target insn)) as [dest|] eqn:Hget.
  - apply table_get_Some in Hget as [Hdest Hdaddr].
    eexists. unfold bind, set_add. cbn [heap next_loc trace]. split; [reflexivity|].
    split; cbn [heap next_loc trace]; [|split; [done|]].
    2:{ eexists. rewrite Ht, <- !app_assoc. split; [reflexivity|]. split.
        - apply no_yield_app; [done|]. by repeat constructor.
        - intros l a. rewrite !elem_of_set_add, !elem_of_app, !list_elem_of_singleton.
          intros [Hold|[[= -> ->]|[= -> ->]]]; [right; right; by apply Hlog|..].
          + right; by left.
          + by left. }
    intros fh' Hfh'. destruct (Hg fh' Hfh') as [Hcf Hct].
    destruct (set_locs_distinct fhs Hlocs fh fh' Hfh Hfh') as (Hft & Hff & _).
    destruct (set_locs_distinct fhs Hlocs fh' dest Hfh' Hdest) as (Hft' & _ & Htt).
    assert (FunctionHandle.address fh' = target insn → fh' = dest) as Hinj'.
    { intros Heq. apply (NoDup_fmap_eq FunctionHandle.address fhs); [done..|]. congruence. }
    split; intros a; rewrite !elem_of_set_add, elem_of_app, list_elem_of_singleton.
    + rewrite Hcf. split.
      * intros [[Heq ->]|[[Heq _]|?]]; [|done|by left].
        symmetry in Heq. apply Hff in Heq as <-. by right.
      * intros [?|[= Heq ->]]; [by right; right|]. left. by rewrite (Hinj _ Hfh' Heq).
    + rewrite Hct. split.
      * intros [[Heq _]|[[Heq ->]|?]]; [by symmetry in Heq|..|by left].
        apply Htt in Heq as ->. right. by rewrite Hdaddr.
      * intros [?|[= -> Heq]]; [by right; right|]. right; left. by rewrite (Hinj' Heq).
  - eexists. unfold bind, ret, set_add. cbn [heap next_loc trace]. split; [reflexivity|].
    split; cbn [heap next_loc trace]; [|split; [done|]].
    2:{ eexists. rewrite Ht, <- !app_assoc. split; [reflexivity|]. split.
        - apply no_yield_app; [done|]. by repeat constructor.
        - intros l a. rewrite !elem_of_set_add, !elem_of_app, !list_elem_of_singleton.
          intros [Hold|[= -> ->]]; [right; by apply Hlog | by left]. }
    intros fh' Hfh'. destruct (Hg fh' Hfh') as [Hcf Hct].
    destruct (set_locs_distinct fhs Hlocs fh fh' Hfh Hfh') as (Hft & Hff & _).
    split; intros a; rewrite !elem_of_set_add, elem_of_app, list_elem_of_singleton.
    + rewrite Hcf. split.
      * intros [[Heq ->]|?]; [|by left].
        symmetry in Heq. apply Hff in Heq as <-. by right.
      * intros [?|[= Heq ->]]; [by right|]. left. by rewrite (Hinj _ Hfh' Heq).
    + rewrite Hct. split.
      * intros [[Heq _]|?]; [by symmetry in Heq | by left].
      * intros [?|[= -> Heq]]; [by right|].
        exfalso. by apply (table_get_None _ fh' Hget).
Qed.

(** The pass cannot fail, and when it starts from empty sets it leaves in
    them exactly the call edges of the methods of the table. *)
Lemma calculate_calls_run σ :
  graph_is fhs [] (heap σ) →
  ∃ σ', calculate_calls (table_of fhs) σ = (Ok (), σ') ∧ pass_inv fhs σ (call_edges fhs) σ'.
Proof.
  intros Hempty. unfold calculate_calls. rewrite table_of_values.
  apply (for_inv (λ pre, pass_inv fhs σ (call_edges pre)) fhs _) with (pre := []); [|done|].
  - intros pre fh post σ1 Hall Hinv. rewrite call_edges_snoc.
    assert (fh ∈ fhs) as Hfh.
    { rewrite Hall. apply elem_of_app; right. apply elem_of_cons; by left. }
    apply (for_inv
             (λ ipre, pass_inv fhs σ (call_edges pre ++ edges_of (FunctionHandle.address fh) ipre))
             (CilMethodBody.instructions (FunctionHandle.inner fh)) _) with (pre := []);
      [|done|by rewrite app_nil_r].
    intros ipre insn ipost σ2 _ Hinv2.
    rewrite edges_of_app, app_assoc. by apply record_call_step.
  - split; [done|]. split; [done|]. exists []. rewrite app_nil_r.
    split; [done|]. split; [constructor|]. intros l a Hin. by apply elem_of_nil in Hin.
Qed.
End call_graph.

(** * The managed function walker as a whole *)

Lemma bodies_addresses_NoDup (bodies : list (Z * CilMethodBody.t)) :
  NoDup (bodies.*1) → NoDup ((λ item, DNTokenAddress item.1) <$> bodies).
Proof.
  intros Hnd. apply DNTokenAddress_NoDup in Hnd.
  by rewrite <- list_fmap_compose in Hnd.
Qed.

Lemma fresh_sets_empty self (n : loc) bodies (h : gmap loc Obj) :
  (∀ l, (n ≤ l < n + 2 * length bodies)%nat → h !! l = Some (OSet ∅)) →
  graph_is (handles_from self n bodies) [] h.
Proof.
  intros Hnew fh Hfh.
  destruct (set_locs_elem _ _ Hfh) as [Hcf Hct].
  rewrite handles_from_locs in Hcf, Hct. apply elem_of_seq in Hcf, Hct.
  split; intros a; unfold read_set; rewrite ?(Hnew _ Hcf), ?(Hnew _ Hct), elem_of_nil;
    (split; [apply not_elem_of_empty | done]).
Qed.

(** With pairwise distinct method tokens the walker succeeds.  Its log is a
    run of [add]s followed by the yields of the handles, one per method in
    the order of the enumeration; every handle is yielded with the heap the
    walker ends in, where the sets hold exactly the call edges. *)
Lemma get_functions_run self (h : gmap loc Obj) (n : loc) :
  NoDup ((get_dotnet_managed_method_bodies (pe self)).*1) →
  ∃ σ' adds,
    let fhs := handles_from self n (get_dotnet_managed_method_bodies (pe self)) in
    get_functions self (mkStore h n []) = (Ok (), σ')
    ∧ trace σ' = adds ++ ((λ fh, EvYield fh (heap σ')) <$> fhs)
    ∧ no_yield adds
    ∧ graph_is fhs (call_edges fhs) (heap σ')
    ∧ ∀ l a, EvSetAdd l a ∈ adds → a ∈ read_set (heap σ') l.
Proof.
  intros Hnd. set (bodies := get_dotnet_managed_method_bodies (pe self)) in *.
  destruct (create_table_ok self bodies [] (mkStore h n []) Hnd)
    as (σ1 & Hrun1 & Ht1 & Hn1 & Hnew & _).
  { intros token _. apply not_elem_of_nil. }
  cbn [next_loc trace app] in *.
  destruct (calculate_calls_run (handles_from self n bodies)) with (σ := σ1)
    as (σ2 & Hrun2 & Hg & _ & adds & Ht2 & Hadds & Hlog).
  { rewrite handles_from_address. by apply bodies_addresses_NoDup. }
  { rewrite handles_from_locs. apply NoDup_seq. }
  { apply fresh_sets_empty. intros l Hl. apply Hnew. lia. }
  exists (mkStore (heap σ2) (next_loc σ2)
            (trace σ2 ++ ((λ fh, EvYield fh (heap σ2)) <$> handles_from self n bodies))), adds.
  cbn zeta. unfold get_functions, bind, create_method_lookup_table.
  change (@nil (Address * FH)) with (table_of []). fold bodies. rewrite Hrun1, Hrun2.
  rewrite table_of_values, yield_from_run. cbn [heap trace].
  rewrite Ht2, Ht1. done.
Qed.

(** A method token met twice makes the walker fail with an assertion error
    before anything is added to a set or yielded. *)
Lemma get_functions_collision self (h : gmap loc Obj) (n : loc) :
  ¬ NoDup ((get_dotnet_managed_method_bodies (pe self)).*1) →
  ∃ σ', get_functions self (mkStore h n []) = (Raise AssertionError, σ') ∧ trace σ' = [].
Proof.
  intros Hdup. set (bodies := get_dotnet_managed_method_bodies (pe self)) in *.
  pose proof (create_table_collision self bodies [] (mkStore h n [])) as Hfail.
  pose proof (create_table_trace self bodies (table_of []) (mkStore h n [])) as Htrace.
  unfold get_functions, bind, create_method_lookup_table.
  change (@nil (Address * FH)) with (table_of []). fold bodies.
  destruct (foldM (add_method self) (table_of []) bodies (mkStore h n [])) as [r σ1].
  cbn [fst snd trace] in *. rewrite Hfail; [by exists σ1|].
  intros [Hnd _]. done.
Qed.

Lemma is_call_elem op : is_call op = true ↔ op ∈ [Call; Callvirt; Jmp; Newobj].
Proof. unfold is_call. apply bool_decide_eq_true. Qed.

(** The sets of a finished pass, read off the instructions. *)
Lemma graph_is_calls (fhs : list FH) (h : gmap loc Obj) :
  NoDup (FunctionHandle.address <$> fhs) →
  graph_is fhs (call_edges fhs) h →
  ∀ fh a, fh ∈ fhs →
    (a ∈ read_set h (Ctx.calls_from (FunctionHandle.ctx fh)) ↔ calls fh a)
    ∧ (a ∈ read_set h (Ctx.calls_to (FunctionHandle.ctx fh))
       ↔ ∃ m, m ∈ fhs ∧ FunctionHandle.address m = a ∧ calls m (FunctionHandle.address fh)).
Proof.
  intros Hnd Hg fh a Hfh. destruct (Hg fh Hfh) as [Hcf Hct].
  rewrite Hcf, Hct, !elem_of_call_edges. unfold calls. split; split.
  - intros (m & insn & Hm & Heq & Hin & Hcall & Ht).
    apply (NoDup_fmap_eq FunctionHandle.address fhs _ _ Hnd Hm Hfh) in Heq as ->.
    exists insn. by rewrite <- is_call_elem.
  - intros (insn & Hin & Hcall & Ht). exists fh, insn. by rewrite is_call_elem.
  - intros (m & insn & Hm & Heq & Hin & Hcall & Ht).
    exists m. repeat split; [done..|]. exists insn. by rewrite <- is_call_elem.
  - intros (m & Hm & Heq & insn & Hin & Hcall & Ht). exists m, insn. by rewrite is_call_elem.
Qed.

Lemma handles_from_items self n bodies :
  (λ fh : FH, (FunctionHandle.address fh, FunctionHandle.inner fh)) <$> handles_from self n bodies
  = (λ item, (DNTokenAddress item.1, item.2)) <$> bodies.
Proof. revert n. induction bodies as [|item rest IH]; intros n; csimpl; [done | by rewrite IH]. Qed.

Lemma run_yielded (adds : list (Event FH)) (h : gmap loc Obj) (fhs : list FH) :
  no_yield adds → yielded (adds ++ ((λ fh, EvYield fh h) <$> fhs)) = fhs.
Proof.
  intros Hadds. by rewrite yielded_app, (yielded_no_yield adds), yielded_yields.
Qed.

(** * The claims about the managed call graph *)

(** C1. When the method tokens are pairwise distinct the walker completes,
    yields one handle per method body, and for all yielded methods [m1], [m2]
    such that an instruction of [m1] with opcode Call, Callvirt, Jmp or
    Newobj has the token of [m2] as its operand, the address of [m1] is in
    the [calls_to] set of [m2] and the address of [m2] is in the [calls_from]
    set of [m1]; [m1] and [m2] may come in either order and may be the same
    method. *)
Theorem call_edges_recorded self (h : gmap loc Obj) (n : loc) :
  NoDup ((get_dotnet_managed_method_bodies (pe self)).*1) →
  ∃ σ',
    get_functions self (mkStore h n []) = (Ok (), σ')
    ∧ (λ m : FH, (FunctionHandle.address m, FunctionHandle.inner m)) <$> yielded (trace σ')
      = (λ item, (DNTokenAddress item.1, item.2)) <$> get_dotnet_managed_method_bodies (pe self)
    ∧ ∀ m1 m2 insn,
        m1 ∈ yielded (trace σ') → m2 ∈ yielded (trace σ') →
        insn ∈ CilMethodBody.instructions (FunctionHandle.inner m1) →
        Instruction.opcode insn ∈ [Call; Callvirt; Jmp; Newobj] →
        DNTokenAddress (Token.value (Instruction.operand insn)) = FunctionHandle.address m2 →
        FunctionHandle.address m1 ∈ read_set (heap σ') (Ctx.calls_to (FunctionHandle.ctx m2))
        ∧ FunctionHandle.address m2 ∈ read_set (heap σ') (Ctx.calls_from (FunctionHandle.ctx m1)).
Proof.
  intros Hnd. destruct (get_functions_run self h n Hnd) as (σ' & adds & Hrun & Ht & Hadds & Hg & Hlog).
  exists σ'. split; [done|]. rewrite Ht, (run_yielded _ _ _ Hadds).
  split; [apply handles_from_items|].
  intros m1 m2 insn Hm1 Hm2 Hin Hop Htarget.
  assert (NoDup (FunctionHandle.address <$>
                   handles_from self n (get_dotnet_managed_method_bodies (pe self)))) as Haddr.
  { rewrite handles_from_address. by apply bodies_addresses_NoDup. }
  split.
  - apply (graph_is_calls _ _ Haddr Hg m2 _ Hm2). exists m1. repeat split; [done..|].
    by exists insn.
  - apply (graph_is_calls _ _ Haddr Hg m1 _ Hm1). by exists insn.
Qed.

Lemma call_edges_recorded_witness :
  ∃ σ',
    get_functions scenario (mkStore ∅ 0%nat []) = (Ok (), σ')
    ∧ (λ m : FH, (FunctionHandle.address m, FunctionHandle.inner m)) <$> yielded (trace σ')
      = [(DNTokenAddress 0x06000001, method_A); (DNTokenAddress 0x06000002, method_B)]
    ∧ ∀ m1 m2 insn,
        m1 ∈ yielded (trace σ') → m2 ∈ yielded (trace σ') →
        insn ∈ CilMethodBody.instructions (FunctionHandle.inner m1) →
        Instruction.opcode insn ∈ [Call; Callvirt; Jmp; Newobj] →
        DNTokenAddress (Token.value (Instruction.operand insn)) = FunctionHandle.address m2 →
        FunctionHandle.address m1 ∈ read_set (heap σ') (Ctx.calls_to (FunctionHandle.ctx m2))
        ∧ FunctionHandle.address m2 ∈ read_set (heap σ') (Ctx.calls_from (FunctionHandle.ctx m1)).
Proof.
  apply (call_edges_recorded scenario ∅ 0%nat).
  apply (bool_decide_unpack _). vm_compute. exact I.
Defined.

(** C2. When the method tokens are pairwise distinct the walker completes,
    and every address that it adds to the [calls_to] set of a yielded handle,
    or that is found in that set in the end, is the address of a yielded
    handle, that is, of a method of the method-definition enumeration.  An operand token of a call instruction that names no such
    method is put in the [calls_from] set of the calling method and is in no
    [calls_to] set. *)
Theorem calls_to_only_defined_methods self (h : gmap loc Obj) (n : loc) :
  NoDup ((get_dotnet_managed_method_bodies (pe self)).*1) →
  ∃ σ',
    get_functions self (mkStore h n []) = (Ok (), σ')
    ∧ FunctionHandle.address <$> yielded (trace σ')
      = DNTokenAddress <$> (get_dotnet_managed_method_bodies (pe self)).*1
    ∧ (∀ m a,
         m ∈ yielded (trace σ') →
         EvSetAdd (Ctx.calls_to (FunctionHandle.ctx m)) a ∈ trace σ'
         ∨ a ∈ read_set (heap σ') (Ctx.calls_to (FunctionHandle.ctx m)) →
         a ∈ FunctionHandle.address <$> yielded (trace σ'))
    ∧ (∀ m insn,
         m ∈ yielded (trace σ') →
         insn ∈ CilMethodBody.instructions (FunctionHandle.inner m) →
         Instruction.opcode insn ∈ [Call; Callvirt; Jmp; Newobj] →
         Token.value (Instruction.operand insn)
           ∉ (get_dotnet_managed_method_bodies (pe self)).*1 →
         DNTokenAddress (Token.value (Instruction.operand insn))
           ∈ read_set (heap σ') (Ctx.calls_from (FunctionHandle.ctx m))
         ∧ ∀ m', m' ∈ yielded (trace σ') →
             DNTokenAddress (Token.value (Instruction.operand insn))
               ∉ read_set (heap σ') (Ctx.calls_to (FunctionHandle.ctx m'))).
Proof.
  intros Hnd. destruct (get_functions_run self h n Hnd) as (σ' & adds & Hrun & Ht & Hadds & Hg & Hlog).
  set (bodies := get_dotnet_managed_method_bodies (pe self)) in *. cbn zeta in *.
  exists σ'. split; [done|].
  assert (yielded (trace σ') = handles_from self n bodies) as ->
    by (by rewrite Ht, (run_yielded _ _ _ Hadds)).
  assert (FunctionHandle.address <$> handles_from self n bodies = DNTokenAddress <$> bodies.*1)
    as Haddrs by (by rewrite handles_from_address, <- list_fmap_compose).
  assert (NoDup (FunctionHandle.address <$> handles_from self n bodies)) as Haddr.
  { rewrite Haddrs. by apply DNTokenAddress_NoDup. }
  assert (∀ m a, m ∈ handles_from self n bodies →
            a ∈ read_set (heap σ') (Ctx.calls_to (FunctionHandle.ctx m)) →
            a ∈ FunctionHandle.address <$> handles_from self n bodies) as Hdefined.
  { intros m a Hm Ha. apply (graph_is_calls _ _ Haddr Hg m a Hm) in Ha as (m' & Hm' & <- & _).
    by apply list_elem_of_fmap_2. }
  split; [done|]. split.
  { intros m a Hm [Hev|Ha]; [|by apply (Hdefined m)].
    apply (Hdefined m); [done|]. apply Hlog. rewrite Ht in Hev.
    apply elem_of_app in Hev as [Hev|Hev]; [done|].
    by apply list_elem_of_fmap in Hev as (? & [=] & _). }
  intros m insn Hm Hin Hop Hext. split.
  - apply (graph_is_calls _ _ Haddr Hg m _ Hm). by exists insn.
  - intros m' Hm' Ha. apply Hdefined in Ha; [|done]. rewrite Haddrs in Ha.
    apply list_elem_of_fmap in Ha as (token & [= <-] & Htoken). done.
Qed.

Lemma calls_to_only_defined_methods_witness :
  ∃ σ',
    get_functions scenario (mkStore ∅ 0%nat []) = (Ok (), σ')
    ∧ FunctionHandle.address <$> yielded (trace σ')
      = [DNTokenAddress 0x06000001; DNTokenAddress 0x06000002]
    ∧ (∀ m a,
         m ∈ yielded (trace σ') →
         EvSetAdd (Ctx.calls_to (FunctionHandle.ctx m)) a ∈ trace σ'
         ∨ a ∈ read_set (heap σ') (Ctx.calls_to (FunctionHandle.ctx m)) →
         a ∈ FunctionHandle.address <$> yielded (trace σ'))
    ∧ (∀ m insn,
         m ∈ yielded (trace σ') →
         insn ∈ CilMethodBody.instructions (FunctionHandle.inner m) →
         Instruction.opcode insn ∈ [Call; Callvirt; Jmp; Newobj] →
         Token.value (Instruction.operand insn) ∉ [0x06000001; 0x06000002] →
         DNTokenAddress (Token.value (Instruction.operand insn))
           ∈ read_set (heap σ') (Ctx.calls_from (FunctionHandle.ctx m))
         ∧ ∀ m', m' ∈ yielded (trace σ') →
             DNTokenAddress (Token.value (Instruction.operand insn))
               ∉ read_set (heap σ') (Ctx.calls_to (FunctionHandle.ctx m'))).
Proof.
  apply (calls_to_only_defined_methods scenario ∅ 0%nat).
  apply (bool_decide_unpack _). vm_compute. exact I.
Defined.

(** C3. Whatever the sample, the log of the walker is a run of [add]s
    followed by the yields: nothing is added to a set once a handle has been
    yielded, and every handle is yielded with the heap the walker ends in.
    In that heap the [calls_from] set of each yielded method holds exactly
    the targets of its call instructions, and its [calls_to] set exactly the
    addresses of the yielded methods that call it.  The walker yields one
    handle per method body when the tokens are pairwise distinct, and
    otherwise fails before it adds or yields anything. *)
Theorem call_graph_complete_before_first_yield self (h : gmap loc Obj) (n : loc) :
  ∃ r σ' adds fhs,
    get_functions self (mkStore h n []) = (r, σ')
    ∧ trace σ' = adds ++ ((λ fh, EvYield fh (heap σ')) <$> fhs)
    ∧ Forall (λ e, is_yield e = false) adds
    ∧ Forall (λ m,
        ∀ a,
          (a ∈ read_set (heap σ') (Ctx.calls_from (FunctionHandle.ctx m)) ↔ calls m a)
          ∧ (a ∈ read_set (heap σ') (Ctx.calls_to (FunctionHandle.ctx m))
             ↔ ∃ m', m' ∈ fhs ∧ FunctionHandle.address m' = a
                     ∧ calls m' (FunctionHandle.address m))) fhs
    ∧ if decide (NoDup ((get_dotnet_managed_method_bodies (pe self)).*1))
      then r = Ok ()
           ∧ (λ m : FH, (FunctionHandle.address m, FunctionHandle.inner m)) <$> fhs
             = (λ item, (DNTokenAddress item.1, item.2))
                 <$> get_dotnet_managed_method_bodies (pe self)
      else r = Raise AssertionError ∧ adds = [] ∧ fhs = [].
Proof.
  destruct (decide (NoDup ((get_dotnet_managed_method_bodies (pe self)).*1))) as [Hnd|Hdup].
  - destruct (get_functions_run self h n Hnd) as (σ' & adds & Hrun & Ht & Hadds & Hg & Hlog).
    cbn zeta in *.
    exists (Ok ()), σ', adds, (handles_from self n (get_dotnet_managed_method_bodies (pe self))).
    split; [done|]. split; [done|]. split; [done|]. split.
    + apply Forall_forall. intros m Hm a. apply graph_is_calls; [|done..].
      rewrite handles_from_address. by apply bodies_addresses_NoDup.
    + split; [done | apply handles_from_items].
  - destruct (get_functions_collision self h n Hdup) as (σ' & Hrun & Ht).
    exists (Raise AssertionError), σ', [], []. by rewrite Ht.
Qed.

(** * The token cache *)

Lemma fill_lookup (symbols : list Symbol) :
  ∀ (table : gmap Z Symbol) (tok : Z),
    DnFileFeatureExtractorCache.fill table symbols !! tok
    = match last (filter (λ s, token s = tok) symbols) with
      | Some s => Some s
      | None => table !! tok
      end.
Proof.
  unfold DnFileFeatureExtractorCache.fill.
  induction symbols as [|s rest IH]; intros table tok; [done|].
  simpl. rewrite IH. rewrite filter_cons. destruct (decide (token s = tok)) as [Heq|Hne].
  - rewrite last_cons. destruct (last _); [done|]. by rewrite Heq, lookup_insert_eq.
  - by rewrite lookup_insert_ne.
Qed.

(** A table filled from nothing answers a token with the last symbol of the
    enumeration that carries it. *)
Lemma fill_empty_lookup (symbols : list Symbol) (tok : Z) :
  DnFileFeatureExtractorCache.fill ∅ symbols !! tok
  = last (filter (λ s, token s = tok) symbols).
Proof. rewrite fill_lookup, lookup_empty. by destruct (last _). Qed.

Lemma last_Some_elem {A} (l : list A) x : last l = Some x → x ∈ l.
Proof.
  rewrite last_Some. intros [l' ->]. apply elem_of_app; right. apply list_elem_of_singleton. done.
Qed.

Lemma fill_outcome (symbols : list Symbol) (tok : Z) :
  lookup_outcome symbols tok (DnFileFeatureExtractorCache.fill ∅ symbols !! tok).
Proof.
  rewrite fill_empty_lookup. unfold lookup_outcome.
  destruct (last _) as [s|] eqn:Hlast.
  - apply last_Some_elem in Hlast. by apply list_elem_of_filter in Hlast as [? ?].
  - apply last_None in Hlast. intros Hin.
    apply list_elem_of_fmap in Hin as (s & Heq & Hs).
    assert (s ∈ filter (λ s, token s = tok) symbols) as Hf by (by apply list_elem_of_filter).
    rewrite Hlast in Hf. by apply elem_of_nil in Hf.
Qed.

(** C8. Each of the five lookups of the token cache answers every token,
    present in the sample or not, with a symbol that its enumeration gave
    under that very token, or with [None] when the enumeration gave no symbol
    under it; there is no other outcome. *)
Theorem cache_lookups_total (pe : dnPE.t) (tok : Z) :
  let cache := DnFileFeatureExtractorCache.__init__ pe in
  lookup_outcome (get_dotnet_managed_imports pe) tok
    (DnFileFeatureExtractorCache.get_import cache tok)
  ∧ lookup_outcome (get_dotnet_unmanaged_imports pe) tok
      (DnFileFeatureExtractorCache.get_native_import cache tok)
  ∧ lookup_outcome (get_dotnet_managed_methods pe) tok
      (DnFileFeatureExtractorCache.get_method cache tok)
  ∧ lookup_outcome (get_dotnet_fields pe) tok
      (DnFileFeatureExtractorCache.get_field cache tok)
  ∧ lookup_outcome (get_dotnet_types pe) tok
      (DnFileFeatureExtractorCache.get_type cache tok).
Proof. cbn zeta. repeat split; apply fill_outcome. Qed.

(** C4, as the code has it.  The function walker checks that method tokens
    are unique: it succeeds when they are pairwise distinct and otherwise
    fails with an assertion error, with nothing added to a set and nothing
    yielded.  The token cache makes no such check: building it always
    succeeds, and each of its five lookups answers a token with the last
    symbol that its enumeration gave under that token. *)
Theorem duplicate_token_policy (pe : dnPE.t) (min_str_len : Z) (h : gmap loc Obj) (n : loc)
    (tok : Z) :
  let self := DnfileFeatureExtractor.__init__ pe min_str_len in
  let run := get_functions self (mkStore h n []) in
  let cache := DnFileFeatureExtractorCache.__init__ pe in
  (if decide (NoDup ((get_dotnet_managed_method_bodies pe).*1))
   then run.1 = Ok ()
   else run.1 = Raise AssertionError ∧ trace run.2 = [])
  ∧ DnFileFeatureExtractorCache.get_import cache tok
    = last (filter (λ s, token s = tok) (get_dotnet_managed_imports pe))
  ∧ DnFileFeatureExtractorCache.get_native_import cache tok
    = last (filter (λ s, token s = tok) (get_dotnet_unmanaged_imports pe))
  ∧ DnFileFeatureExtractorCache.get_method cache tok
    = last (filter (λ s, token s = tok) (get_dotnet_managed_methods pe))
  ∧ DnFileFeatureExtractorCache.get_field cache tok
    = last (filter (λ s, token s = tok) (get_dotnet_fields pe))
  ∧ DnFileFeatureExtractorCache.get_type cache tok
    = last (filter (λ s, token s = tok) (get_dotnet_types pe)).
Proof.
  cbn zeta. split; [|repeat split; apply fill_empty_lookup].
  destruct (decide _) as [Hnd|Hdup].
  - destruct (get_functions_run (DnfileFeatureExtractor.__init__ pe min_str_len) h n Hnd)
      as (σ' & adds & Hrun & _).
    by rewrite Hrun.
  - destruct (get_functions_collision (DnfileFeatureExtractor.__init__ pe min_str_len) h n Hdup)
      as (σ' & Hrun & Ht).
    by rewrite Hrun.
Qed.

(** C4 as stated fails: the managed-import table below has two rows with
    token 0x0A000001; the cache is built all the same, holds one entry for
    the token, and that entry is the second row. *)
Lemma token_cache_keeps_last_duplicate :
  let cache := DnFileFeatureExtractorCache.__init__ duplicate_imports in
  get_dotnet_managed_imports duplicate_imports
    = [DnType 0x0A000001 "System.IO.File::ReadAllBytes";
       DnType 0x0A000001 "System.IO.File::Delete"]
  ∧ map_to_list (DnFileFeatureExtractorCache.imports cache)
    = [(0x0A000001, DnType 0x0A000001 "System.IO.File::Delete")]
  ∧ DnFileFeatureExtractorCache.get_import cache 0x0A000001
    = Some (DnType 0x0A000001 "System.IO.File::Delete").
Proof. cbn zeta. repeat split; vm_compute; reflexivity. Qed.

(** * The native function walker *)

Lemma for_yield {Y A} (f : A → Y) (xs : list A) (σ : Store Y) :
  for_ xs (λ x, yield (f x)) σ = yield_from (f <$> xs) σ.
Proof.
  unfold yield_from. revert σ. induction xs as [|x xs IH]; intros σ; [done|].
  csimpl. unfold bind. destruct (yield (f x) σ) as [[[]|e] σ1]; [apply IH | done].
Qed.

Lemma new_AbsoluteVirtualAddress_nonneg (v : Z) :
  0 ≤ v → new_AbsoluteVirtualAddress v = Ok (AbsoluteVirtualAddress v).
Proof. intros. unfold new_AbsoluteVirtualAddress. by rewrite bool_decide_eq_true_2. Qed.

Lemma new_AbsoluteVirtualAddress_neg (v : Z) :
  v < 0 → new_AbsoluteVirtualAddress v = Raise AssertionError.
Proof. intros. unfold new_AbsoluteVirtualAddress. rewrite bool_decide_eq_false_2; [done | lia]. Qed.

Lemma for_ext {Y A} (xs : list A) (f g : A → M Y unit) (σ : Store Y) :
  (∀ x σ', x ∈ xs → f x σ' = g x σ') → for_ xs f σ = for_ xs g σ.
Proof.
  revert σ. induction xs as [|x xs IH]; intros σ Hfg; [done|].
  simpl. unfold bind. rewrite (Hfg x σ) by (apply elem_of_cons; by left).
  destruct (g x σ) as [[[]|e] σ1]; [|done].
  apply IH. intros y σ' Hy. apply Hfg. apply elem_of_cons; by right.
Qed.

(** The loop of the native walker over addresses that are all non-negative. *)
Lemma native_loop_ok (self : Viv.VivisectFeatureExtractor.t) (n : loc) (xs : list Z)
    (σ : Store Viv.VivisectFeatureExtractor.FH) :
  Forall (λ va, 0 ≤ va) xs →
  for_ xs (λ va,
    address <- lift (new_AbsoluteVirtualAddress va) ;;
    yield (FunctionHandle.mk address
             (Viv.Function.mk (Viv.VivisectFeatureExtractor.vw self) va)
             (Viv.VivisectFeatureExtractor.Ctx.mk n
                (Viv.VivisectFeatureExtractor.min_str_len self)))) σ
  = yield_from (native_handle self n <$> xs) σ.
Proof.
  intros Hall. rewrite <- for_yield. apply for_ext. intros x σ' Hx.
  rewrite Forall_forall in Hall. unfold bind, lift.
  by rewrite new_AbsoluteVirtualAddress_nonneg by (by apply Hall).
Qed.

(** The loop stops at once, with nothing yielded, on a negative address. *)
Lemma native_loop_neg (self : Viv.VivisectFeatureExtractor.t) (n : loc) (x : Z) (xs : list Z)
    (σ : Store Viv.VivisectFeatureExtractor.FH) :
  x < 0 →
  for_ (x :: xs) (λ va,
    address <- lift (new_AbsoluteVirtualAddress va) ;;
    yield (FunctionHandle.mk address
             (Viv.Function.mk (Viv.VivisectFeatureExtractor.vw self) va)
             (Viv.VivisectFeatureExtractor.Ctx.mk n
                (Viv.VivisectFeatureExtractor.min_str_len self)))) σ
  = (Raise AssertionError, σ).
Proof.
  intros Hx. simpl. unfold bind, lift. by rewrite new_AbsoluteVirtualAddress_neg.
Qed.

(** A sorted list with a negative member starts with a negative member. *)
Lemma sorted_head_negative (xs : list Z) :
  Sorted Z.le xs → ¬ Forall (λ va, 0 ≤ va) xs → ∃ x rest, xs = x :: rest ∧ x < 0.
Proof.
  intros Hsorted Hneg. apply (Sorted_StronglySorted _) in Hsorted.
  destruct Hsorted as [|x rest _ Hall]; [by destruct Hneg|].
  exists x, rest. split; [done|]. destruct (decide (x < 0)) as [|Hge]; [done|].
  exfalso. apply Hneg. constructor; [lia|].
  eapply Forall_impl; [exact Hall|]. intros y ?. simpl in *. lia.
Qed.

Lemma merge_sort_nonneg (xs : list Z) :
  Forall (λ va, 0 ≤ va) (merge_sort Z.le xs) ↔ Forall (λ va, 0 ≤ va) xs.
Proof. by rewrite merge_sort_Permutation. Qed.

(** The native walker allocates one empty dictionary and then, when no
    listed address is negative, yields the handles in the order [sorted]
    gives, without ever writing to the dictionary.  When a listed address is
    negative, the smallest one comes first and the walker fails on it before
    it yields anything. *)
Lemma native_get_functions_run (self : Viv.VivisectFeatureExtractor.t)
    (h : gmap loc Obj) (n : loc) :
  Viv.VivisectFeatureExtractor.get_functions self (mkStore h n [])
  = if decide (Forall (λ va, 0 ≤ va)
                 (Viv.Workspace.getFunctions (Viv.VivisectFeatureExtractor.vw self)))
    then (Ok (),
          mkStore (<[n := ODict ∅]> h) (S n)
            ((λ va, EvYield (native_handle self n va) (<[n := ODict ∅]> h))
               <$> merge_sort Z.le
                     (Viv.Workspace.getFunctions (Viv.VivisectFeatureExtractor.vw self))))
    else (Raise AssertionError, mkStore (<[n := ODict ∅]> h) (S n) []).
Proof.
  unfold Viv.VivisectFeatureExtractor.get_functions, bind at 1, new_dict.
  cbn [heap next_loc trace].
  set (vas := Viv.Workspace.getFunctions (Viv.VivisectFeatureExtractor.vw self)).
  destruct (decide (Forall (λ va, 0 ≤ va) vas)) as [Hall|Hneg].
  - rewrite native_loop_ok by (by apply merge_sort_nonneg).
    rewrite yield_from_run. cbn [heap next_loc trace app].
    by rewrite <- list_fmap_compose.
  - destruct (sorted_head_negative (merge_sort Z.le vas)) as (x & rest & Heq & Hx).
    { apply (Sorted_merge_sort _). }
    { by rewrite merge_sort_nonneg. }
    rewrite Heq. by apply native_loop_neg.
Qed.

Lemma native_yielded (self : Viv.VivisectFeatureExtractor.t) (h : gmap loc Obj) (n : loc) :
  yielded (trace (Viv.VivisectFeatureExtractor.get_functions self (mkStore h n [])).2)
  = if decide (Forall (λ va, 0 ≤ va)
                 (Viv.Workspace.getFunctions (Viv.VivisectFeatureExtractor.vw self)))
    then native_handle self n
           <$> merge_sort Z.le
                 (Viv.Workspace.getFunctions (Viv.VivisectFeatureExtractor.vw self))
    else [].
Proof.
  rewrite native_get_functions_run. destruct (decide _); cbn [snd trace]; [|done].
  apply yielded_yields_fmap.
Qed.

(** The store the native walker stops in, whether it succeeds or fails. *)
Lemma native_final_heap (self : Viv.VivisectFeatureExtractor.t) (h : gmap loc Obj) (n : loc) :
  heap (Viv.VivisectFeatureExtractor.get_functions self (mkStore h n [])).2
    = <[n := ODict ∅]> h
  ∧ next_loc (Viv.VivisectFeatureExtractor.get_functions self (mkStore h n [])).2 = S n.
Proof. rewrite native_get_functions_run. by destruct (decide _). Qed.

(** * Enumeration order *)

Lemma StronglySorted_lt_NoDup (l : list Z) : StronglySorted Z.lt l → NoDup l.
Proof.
  induction 1 as [|x l _ IH Hall]; [constructor|].
  apply NoDup_cons. split; [|done].
  intros Hin. rewrite Forall_forall in Hall. specialize (Hall x Hin). lia.
Qed.




(** * The contexts of the handles *)

Lemma handles_from_ctx self n bodies m :
  m ∈ handles_from self n bodies →
  Ctx.pe (FunctionHandle.ctx m) = pe self
  ∧ Ctx.cache (FunctionHandle.ctx m) = token_cache self.
Proof.
  revert n. induction bodies as [|item rest IH]; intros n Hm; simpl in Hm.
  - by apply elem_of_nil in Hm.
  - apply elem_of_cons in Hm as [->|Hm]; [done | by apply (IH (S (S n)))].
Qed.

(** C6, as the code has it.  Managed walker, method tokens pairwise distinct:
    the first loop makes the handles that are later yielded, and when it is
    done each handle has a [calls_from] and a [calls_to] set that are empty,
    at locations allocated by this run and shared with no other handle; the
    sample and the token cache in the context are the extractor's own, the
    same for every handle.  The handles are yielded after the call-graph
    pass, each with the heap the walker ends in, where its [calls_from] set
    holds exactly the targets of its call instructions and its [calls_to] set
    exactly the addresses of the yielded methods that call it.  Native
    walker: every handle of one enumeration holds the same scratch cache, one
    dictionary that the walker allocates empty before the first handle and
    never writes to itself; it yields one handle per listed address when no
    listed address is negative, and otherwise fails before the first
    handle. *)
Theorem handle_contexts (self : DnfileFeatureExtractor.t)
    (vself : Viv.VivisectFeatureExtractor.t) (h : gmap loc Obj) (n : loc) :
  NoDup ((get_dotnet_managed_method_bodies (pe self)).*1) →
  (∃ methods σ1 σ' adds,
     create_method_lookup_table self (mkStore h n []) = (Ok methods, σ1)
     ∧ get_functions self (mkStore h n []) = (Ok (), σ')
     ∧ trace σ' = adds ++ ((λ m, EvYield m (heap σ')) <$> dict_values methods)
     ∧ Forall (λ e, is_yield e = false) adds
     ∧ Forall (λ m,
         read_set (heap σ1) (Ctx.calls_from (FunctionHandle.ctx m)) = ∅
         ∧ read_set (heap σ1) (Ctx.calls_to (FunctionHandle.ctx m)) = ∅
         ∧ Ctx.pe (FunctionHandle.ctx m) = pe self
         ∧ Ctx.cache (FunctionHandle.ctx m) = token_cache self
         ∧ ∀ a,
             (a ∈ read_set (heap σ') (Ctx.calls_from (FunctionHandle.ctx m)) ↔ calls m a)
             ∧ (a ∈ read_set (heap σ') (Ctx.calls_to (FunctionHandle.ctx m))
                ↔ ∃ m', m' ∈ dict_values methods ∧ FunctionHandle.address m' = a
                        ∧ calls m' (FunctionHandle.address m)))
         (dict_values methods)
     ∧ NoDup (set_locs (dict_values methods))
     ∧ Forall (λ l, (n ≤ l)%nat) (set_locs (dict_values methods)))
  ∧ (∃ r σ',
       Viv.VivisectFeatureExtractor.get_functions vself (mkStore h n []) = (r, σ')
       ∧ read_dict (heap σ') n = ∅
       ∧ Forall (λ e, ∃ fh,
           e = EvYield fh (heap σ')
           ∧ Viv.VivisectFeatureExtractor.Ctx.cache (FunctionHandle.ctx fh) = n) (trace σ')
       ∧ if decide (Forall (λ va, 0 ≤ va)
                      (Viv.Workspace.getFunctions (Viv.VivisectFeatureExtractor.vw vself)))
         then r = Ok ()
              ∧ length (trace σ')
                = length (Viv.Workspace.getFunctions (Viv.VivisectFeatureExtractor.vw vself))
         else r = Raise AssertionError ∧ trace σ' = []).
Proof.
  intros Hnd. split.
  - set (bodies := get_dotnet_managed_method_bodies (pe self)) in *.
    destruct (create_table_ok self bodies [] (mkStore h n []) Hnd)
      as (σ1 & Hrun1 & _ & Hn1 & Hnew & _).
    { intros token _. apply not_elem_of_nil. }
    destruct (get_functions_run self h n Hnd) as (σ' & adds & Hrun & Ht & Hadds & Hg & _).
    cbn [next_loc app] in *. cbn zeta in *. fold bodies in Hrun, Ht, Hg.
    exists (table_of (handles_from self n bodies)), σ1, σ', adds.
    split; [done|]. split; [done|]. rewrite table_of_values.
    split; [done|]. split; [done|]. split; [|split].
    + apply Forall_forall. intros m Hm.
      destruct (set_locs_elem _ _ Hm) as [Hcf Hct].
      rewrite handles_from_locs in Hcf, Hct. apply elem_of_seq in Hcf, Hct.
      unfold read_set at 1 2. rewrite (Hnew (Ctx.calls_from _)), (Hnew (Ctx.calls_to _)) by lia.
      split; [done|]. split; [done|].
      destruct (handles_from_ctx self n bodies m Hm) as [Hpe Hcache].
      split; [done|]. split; [done|].
      intros a. apply graph_is_calls; [|done..].
      rewrite handles_from_address. by apply bodies_addresses_NoDup.
    + rewrite handles_from_locs. apply NoDup_seq.
    + rewrite handles_from_locs. apply Forall_forall. intros l Hl. apply elem_of_seq in Hl. lia.
  - rewrite native_get_functions_run. destruct (decide _) as [Hall|Hneg].
    + eexists _, _. split; [reflexivity|]. cbn [heap trace]. split; [|split].
      * unfold read_dict. by rewrite lookup_insert_eq.
      * apply Forall_forall. intros e He. apply list_elem_of_fmap in He as (va & -> & _).
        by exists (native_handle vself n va).
      * split; [done|]. by rewrite length_fmap, merge_sort_Permutation.
    + eexists _, _. split; [reflexivity|]. cbn [heap trace]. split; [|split].
      * unfold read_dict. by rewrite lookup_insert_eq.
      * constructor.
      * done.
Qed.

Lemma handle_contexts_witness :
  (∃ methods σ1 σ' adds,
     create_method_lookup_table scenario (mkStore ∅ 0%nat []) = (Ok methods, σ1)
     ∧ get_functions scenario (mkStore ∅ 0%nat []) = (Ok (), σ')
     ∧ trace σ' = adds ++ ((λ m, EvYield m (heap σ')) <$> dict_values methods)
     ∧ Forall (λ e, is_yield e = false) adds
     ∧ Forall (λ m,
         read_set (heap σ1) (Ctx.calls_from (FunctionHandle.ctx m)) = ∅
         ∧ read_set (heap σ1) (Ctx.calls_to (FunctionHandle.ctx m)) = ∅
         ∧ Ctx.pe (FunctionHandle.ctx m) = pe scenario
         ∧ Ctx.cache (FunctionHandle.ctx m) = token_cache scenario
         ∧ ∀ a,
             (a ∈ read_set (heap σ') (Ctx.calls_from (FunctionHandle.ctx m)) ↔ calls m a)
             ∧ (a ∈ read_set (heap σ') (Ctx.calls_to (FunctionHandle.ctx m))
                ↔ ∃ m', m' ∈ dict_values methods ∧ FunctionHandle.address m' = a
                        ∧ calls m' (FunctionHandle.address m)))
         (dict_values methods)
     ∧ NoDup (set_locs (dict_values methods))
     ∧ Forall (λ l, (0 ≤ l)%nat) (set_locs (dict_values methods)))
  ∧ (∃ r σ',
       Viv.VivisectFeatureExtractor.get_functions native_sample (mkStore ∅ 0%nat []) = (r, σ')
       ∧ read_dict (heap σ') 0%nat = ∅
       ∧ Forall (λ e, ∃ fh,
           e = EvYield fh (heap σ')
           ∧ Viv.VivisectFeatureExtractor.Ctx.cache (FunctionHandle.ctx fh) = 0%nat) (trace σ')
       ∧ if decide (Forall (λ va, 0 ≤ va) [0x402000; 0x401000])
         then r = Ok () ∧ length (trace σ') = 2%nat
         else r = Raise AssertionError ∧ trace σ' = []).
Proof.
  apply (handle_contexts scenario native_sample ∅ 0%nat).
  apply (bool_decide_unpack _). vm_compute. exact I.
Defined.

(** C6 as stated fails for the native walker: the two handles of the sample
    below, for the functions at 0x401000 and 0x402000, hold one and the same
    scratch cache, so that what a consumer stores in it through the first
    handle is found through the second. *)
Lemma native_handles_share_cache :
  ∃ f1 f2 σ',
    Viv.VivisectFeatureExtractor.get_functions native_sample (mkStore ∅ 0%nat []) = (Ok (), σ')
    ∧ yielded (trace σ') = [f1; f2]
    ∧ FunctionHandle.address f1 = AbsoluteVirtualAddress 0x401000
    ∧ FunctionHandle.address f2 = AbsoluteVirtualAddress 0x402000
    ∧ Viv.VivisectFeatureExtractor.Ctx.cache (FunctionHandle.ctx f1)
      = Viv.VivisectFeatureExtractor.Ctx.cache (FunctionHandle.ctx f2)
    ∧ ∀ k v,
        read_dict
          (dict_store (Viv.VivisectFeatureExtractor.Ctx.cache (FunctionHandle.ctx f1)) k v
             (heap σ'))
          (Viv.VivisectFeatureExtractor.Ctx.cache (FunctionHandle.ctx f2)) !! k
        = Some v.
Proof.
  exists (native_handle native_sample 0 0x401000), (native_handle native_sample 0 0x402000).
  eexists. rewrite native_get_functions_run.
  rewrite decide_True by (repeat constructor; cbn; lia).
  split; [reflexivity|]. cbn [heap trace].
  split; [reflexivity|]. split; [reflexivity|]. split; [reflexivity|]. split; [reflexivity|].
  intros k v. unfold dict_store, read_dict. cbn. by rewrite !lookup_insert_eq.
Qed.

(** * Basic blocks, instructions and the base address *)

Lemma handles_from_elem self n bodies m :
  m ∈ handles_from self n bodies →
  ∃ token, FunctionHandle.address m = DNTokenAddress token
           ∧ (token, FunctionHandle.inner m) ∈ bodies.
Proof.
  revert n. induction bodies as [|[token body] rest IH]; intros n Hm; simpl in Hm.
  - by apply elem_of_nil in Hm.
  - apply elem_of_cons in Hm as [->|Hm].
    + exists token. split; [done|]. apply elem_of_cons; by left.
    + destruct (IH _ Hm) as (token' & ? & ?). exists token'. split; [done|].
      apply elem_of_cons; by right.
Qed.

(** The handles the managed walker yields: those of the method bodies, or
    none when it fails. *)
Lemma get_functions_yielded self (h : gmap loc Obj) (n : loc) :
  yielded (trace (get_functions self (mkStore h n [])).2)
  = if decide (NoDup ((get_dotnet_managed_method_bodies (pe self)).*1))
    then handles_from self n (get_dotnet_managed_method_bodies (pe self))
    else [].
Proof.
  destruct (decide _) as [Hnd|Hdup].
  - destruct (get_functions_run self h n Hnd) as (σ' & adds & Hrun & Ht & Hadds & _).
    cbn zeta in *. rewrite Hrun. cbn [snd]. by rewrite Ht, (run_yielded _ _ _ Hadds).
  - destruct (get_functions_collision self h n Hdup) as (σ' & Hrun & Ht).
    rewrite Hrun. cbn [snd]. by rewrite Ht.
Qed.


(** C9. A managed method has exactly one basic block, at the method's own
    address and with the method body as its content, and that block has no
    features. *)
Theorem managed_single_basic_block (f : FH) :
  ∃ bbh,
    get_basic_blocks f = [bbh]
    ∧ BBHandle.address bbh = FunctionHandle.address f
    ∧ BBHandle.inner bbh = FunctionHandle.inner f
    ∧ extract_basic_block_features f bbh = [].
Proof. by eexists. Qed.

(** C10. The managed extractor gives [NO_ADDRESS] as the base address of
    every sample.  The native extractor gives the absolute address that the
    metadata of the one loaded file records as its image base, an unsigned
    value. *)
Theorem base_addresses (self : DnfileFeatureExtractor.t) (name : string)
    (meta : gmap string Z) (imagebase : Z) (functions : list Z)
    (blocks : Z → list Viv.BasicBlock.t) (min_str_len : Z) :
  0 ≤ imagebase →
  DnfileFeatureExtractor.get_base_address self = NO_ADDRESS
  ∧ Viv.VivisectFeatureExtractor.get_base_address
      (Viv.VivisectFeatureExtractor.mk
         (Viv.Workspace.mk [(name, <["imagebase"%string := imagebase]> meta)] functions blocks)
         min_str_len)
    = Ok (AbsoluteVirtualAddress imagebase).
Proof.
  intros Hbase. split; [done|].
  unfold Viv.VivisectFeatureExtractor.get_base_address. cbn.
  rewrite lookup_insert_eq. by apply new_AbsoluteVirtualAddress_nonneg.
Qed.

Lemma base_addresses_witness :
  DnfileFeatureExtractor.get_base_address scenario = NO_ADDRESS
  ∧ Viv.VivisectFeatureExtractor.get_base_address
      (Viv.VivisectFeatureExtractor.mk
         (Viv.Workspace.mk [("sample.exe"%string, <["imagebase"%string := 0x400000]> ∅)]
            [0x402000; 0x401000] (λ va, []))
         4)
    = Ok (AbsoluteVirtualAddress 0x400000).
Proof.
  apply (base_addresses scenario "sample.exe" ∅ 0x400000 [0x402000; 0x401000] (λ va, []) 4).
  lia.
Defined.


(** * Further properties of the token cache *)

Lemma table_fill (pe : dnPE.t) (c : Category) :
  table (DnFileFeatureExtractorCache.__init__ pe) c
  = DnFileFeatureExtractorCache.fill ∅ (enumerate pe c).
Proof. by destruct c. Qed.

Lemma lookup_in_table (cache : DnFileFeatureExtractorCache.t) (c : Category) (tok : Z) :
  lookup_in cache c tok = table cache c !! tok.
Proof. by destruct c. Qed.

Lemma last_filter_NoDup (symbols : list Symbol) (s : Symbol) :
  NoDup (token <$> symbols) → s ∈ symbols →
  last (filter (λ s', token s' = token s) symbols) = Some s.
Proof.
  induction symbols as [|x rest IH]; csimpl; intros Hnd Hs.
  - by apply elem_of_nil in Hs.
  - apply NoDup_cons in Hnd as [Hx Hnd]. rewrite filter_cons.
    apply elem_of_cons in Hs as [->|Hs].
    + rewrite decide_True by done. rewrite last_cons.
      assert (filter (λ s', token s' = token x) rest = []) as ->; [|done].
      destruct (filter _ rest) as [|y ?] eqn:Hf; [done|]. exfalso. apply Hx.
      assert (y ∈ filter (λ s', token s' = token x) rest) as Hy
        by (rewrite Hf; apply elem_of_cons; by left).
      apply list_elem_of_filter in Hy as [<- Hy]. by apply list_elem_of_fmap_2.
    + destruct (decide (token x = token s)) as [Heq|Hne]; [|by apply IH].
      exfalso. apply Hx. rewrite Heq. by apply list_elem_of_fmap_2.
Qed.

(** X1. When the tokens of a category are pairwise distinct, every symbol
    the sample enumerates for the category is found by the category's lookup
    under its own token. *)
Theorem cache_finds_every_symbol (pe : dnPE.t) (c : Category) (s : Symbol) :
  NoDup (token <$> enumerate pe c) →
  s ∈ enumerate pe c →
  lookup_in (DnFileFeatureExtractorCache.__init__ pe) c (token s) = Some s.
Proof.
  intros Hnd Hs. rewrite lookup_in_table, table_fill, fill_empty_lookup.
  by apply last_filter_NoDup.
Qed.

Lemma cache_finds_every_symbol_witness :
  lookup_in (DnFileFeatureExtractorCache.__init__ several_of_each) CatImports
    (token (DnType 0x0A000002 "System.IO.File::ReadAllBytes"))
  = Some (DnType 0x0A000002 "System.IO.File::ReadAllBytes").
Proof.
  apply (cache_finds_every_symbol several_of_each CatImports).
  - apply (bool_decide_unpack _). vm_compute. exact I.
  - apply (bool_decide_unpack _). vm_compute. exact I.
Defined.

Lemma fill_dom (symbols : list Symbol) :
  ∀ tbl : gmap Z Symbol,
    dom (DnFileFeatureExtractorCache.fill tbl symbols)
    = list_to_set (token <$> symbols) ∪ dom tbl.
Proof.
  unfold DnFileFeatureExtractorCache.fill.
  induction symbols as [|s rest IH]; intros tbl; csimpl.
  - set_solver.
  - rewrite IH, dom_insert_L. set_solver.
Qed.

Lemma size_list_to_set_le (l : list Z) :
  (size (list_to_set (C := gset Z) l) ≤ length l)%nat.
Proof.
  induction l as [|x l IH]; csimpl; [done|].
  rewrite size_union_alt, size_singleton.
  assert (size (list_to_set (C := gset Z) l ∖ {[x]}) ≤ size (list_to_set (C := gset Z) l))%nat
    by (apply subseteq_size; set_solver).
  lia.
Qed.

Lemma size_list_to_set_NoDup (l : list Z) :
  size (list_to_set (C := gset Z) l) = length l ↔ NoDup l.
Proof.
  split; [|apply size_list_to_set].
  induction l as [|x l IH]; csimpl; intros Hsize; [constructor|].
  pose proof (size_list_to_set_le l) as Hle.
  destruct (decide (x ∈ l)) as [Hin|Hnotin].
  - exfalso. assert ({[x]} ∪ list_to_set (C := gset Z) l = list_to_set l) as Heq by set_solver.
    rewrite Heq in Hsize. lia.
  - apply NoDup_cons. split; [done|]. apply IH.
    rewrite size_union, size_singleton in Hsize by set_solver. lia.
Qed.

(** X2. The keys of each table of the cache are exactly the tokens that the
    sample enumerates for the category.  The table has at most as many
    entries as the enumeration has symbols, and as many exactly when the
    tokens of the enumeration are pairwise distinct: any duplicate token
    costs an entry. *)
Theorem cache_table_keys (pe : dnPE.t) (c : Category) :
  let tbl := table (DnFileFeatureExtractorCache.__init__ pe) c in
  dom tbl = list_to_set (token <$> enumerate pe c)
  ∧ (size tbl ≤ length (enumerate pe c))%nat
  ∧ (size tbl = length (enumerate pe c) ↔ NoDup (token <$> enumerate pe c)).
Proof.
  cbn zeta. rewrite table_fill.
  assert (dom (DnFileFeatureExtractorCache.fill ∅ (enumerate pe c))
          = list_to_set (token <$> enumerate pe c)) as Hdom.
  { rewrite fill_dom, dom_empty_L. set_solver. }
  split; [done|]. rewrite <- size_dom, Hdom, <- (length_fmap token (enumerate pe c)).
  split; [apply size_list_to_set_le | apply size_list_to_set_NoDup].
Qed.

(** * Further properties of the managed function walker *)

(** A relation between stores that every step of a loop keeps holds between
    the store the loop starts in and the one it stops in, whether it runs to
    the end or fails on the way. *)
Lemma bind_rel {Y A B} (R : relation (Store Y)) `{!Transitive R}
    (m : M Y A) (k : A → M Y B) (σ : Store Y) :
  R σ (m σ).2 → (∀ a σ1, R σ1 (k a σ1).2) → R σ (bind m k σ).2.
Proof.
  intros Hm Hk. unfold bind. destruct (m σ) as [[a|e] σ1]; [|done].
  cbn [snd] in Hm. by etrans.
Qed.

Lemma for_rel {Y A} (R : relation (Store Y)) `{!Reflexive R, !Transitive R}
    (xs : list A) (body : A → M Y unit) :
  (∀ x σ, x ∈ xs → R σ (body x σ).2) → ∀ σ, R σ (for_ xs body σ).2.
Proof.
  induction xs as [|x xs IH]; intros Hbody σ; [done|].
  simpl. unfold bind. pose proof (Hbody x σ (list_elem_of_here _ _)) as Hx.
  destruct (body x σ) as [[[]|e] σ1]; cbn [snd] in *; [|done].
  etrans; [done|]. apply IH. intros y σ' Hy. apply Hbody. by apply elem_of_cons; right.
Qed.

Lemma foldM_rel {Y A B} (R : relation (Store Y)) `{!Reflexive R, !Transitive R}
    (step : B → A → M Y B) (xs : list A) :
  (∀ acc x σ, R σ (step acc x σ).2) → ∀ acc σ, R σ (foldM step acc xs σ).2.
Proof.
  intros Hstep. induction xs as [|x xs IH]; intros acc σ; [done|].
  simpl. unfold bind. pose proof (Hstep acc x σ) as Hx.
  destruct (step acc x σ) as [[acc'|e] σ1]; cbn [snd] in *; [|done].
  etrans; [done | apply IH].
Qed.

#[local] Instance keeps_below_refl {Y} n : Reflexive (@keeps_below Y n).
Proof. by intros σ Hn. Qed.

#[local] Instance keeps_below_trans {Y} n : Transitive (@keeps_below Y n).
Proof.
  intros σ1 σ2 σ3 H12 H23 Hn. destruct (H12 Hn) as [Hn2 Hf12].
  destruct (H23 Hn2) as [Hn3 Hf23]. split; [done|].
  intros l Hl. by rewrite Hf23, Hf12.
Qed.

#[local] Instance keeps_outside_refl {Y} L : Reflexive (@keeps_outside Y L).
Proof. by intros σ l Hl. Qed.

#[local] Instance keeps_outside_trans {Y} L : Transitive (@keeps_outside Y L).
Proof. intros σ1 σ2 σ3 H12 H23 l Hl. by rewrite H23, H12. Qed.

Lemma add_method_keeps_below self n (acc : list (Address * FH)) item (σ : Store FH) :
  keeps_below n σ (add_method self acc item σ).2.
Proof.
  destruct item as [tok method]. intros Hn.
  unfold add_method, bind, new_set, assert_. simpl.
  destruct (dict_contains _ _); simpl; (split; [lia|]); intros l Hl;
    by rewrite !lookup_insert_ne by lia.
Qed.

Lemma record_call_keeps_outside (fhs : list FH) fh insn (σ : Store FH) :
  fh ∈ fhs → keeps_outside (set_locs fhs) σ (record_call (table_of fhs) fh insn σ).2.
Proof.
  intros Hfh l Hl. destruct (set_locs_elem fhs fh Hfh) as [Hcf _].
  unfold record_call. destruct (is_call _); simpl; [|done].
  destruct (dict_get _ _) as [dest|] eqn:Hget; unfold bind, ret, set_add; cbn [snd heap].
  - apply dict_get_Some_elem in Hget. unfold table_of in Hget.
    apply list_elem_of_fmap in Hget as (fh' & [= _ ->] & Hdest).
    destruct (set_locs_elem fhs fh' Hdest) as [_ Hct].
    rewrite !lookup_insert_ne; [done|..]; by intros <-.
  - rewrite lookup_insert_ne; [done|]. by intros <-.
Qed.

Lemma calculate_calls_keeps_outside (fhs : list FH) (σ : Store FH) :
  keeps_outside (set_locs fhs) σ (calculate_calls (table_of fhs) σ).2.
Proof.
  unfold calculate_calls. rewrite table_of_values.
  apply (for_rel _). intros fh σ1 Hfh.
  apply (for_rel _). intros insn σ2 _. by apply record_call_keeps_outside.
Qed.

(** The three stages of a successful run of the walker, with the stores
    between them. *)
Lemma get_functions_steps self (h : gmap loc Obj) (n : loc) :
  NoDup ((get_dotnet_managed_method_bodies (pe self)).*1) →
  let bodies := get_dotnet_managed_method_bodies (pe self) in
  let fhs := handles_from self n bodies in
  ∃ σ1 σ2,
    create_method_lookup_table self (mkStore h n []) = (Ok (table_of fhs), σ1)
    ∧ trace σ1 = []
    ∧ next_loc σ1 = (n + 2 * length bodies)%nat
    ∧ calculate_calls (table_of fhs) σ1 = (Ok (), σ2)
    ∧ pass_inv fhs σ1 (call_edges fhs) σ2
    ∧ get_functions self (mkStore h n [])
      = (Ok (), mkStore (heap σ2) (next_loc σ2)
                  (trace σ2 ++ ((λ fh, EvYield fh (heap σ2)) <$> fhs))).
Proof.
  intros Hnd. cbn zeta. set (bodies := get_dotnet_managed_method_bodies (pe self)) in *.
  destruct (create_table_ok self bodies [] (mkStore h n []) Hnd)
    as (σ1 & Hrun1 & Ht1 & Hn1 & Hnew & _).
  { intros tok _. apply not_elem_of_nil. }
  cbn [next_loc trace app] in *.
  destruct (calculate_calls_run (handles_from self n bodies)) with (σ := σ1)
    as (σ2 & Hrun2 & Hinv).
  { rewrite handles_from_address. by apply bodies_addresses_NoDup. }
  { rewrite handles_from_locs. apply NoDup_seq. }
  { apply fresh_sets_empty. intros l Hl. apply Hnew. lia. }
  exists σ1, σ2. unfold get_functions, bind, create_method_lookup_table.
  change (@nil (Address * FH)) with (table_of []). fold bodies. rewrite Hrun1, Hrun2.
  by rewrite table_of_values, yield_from_run.
Qed.

(** X4. The managed walker leaves every object that was in the store before
    the call as it was, whether it succeeds or fails on a duplicate token.
    When it succeeds it has allocated two sets per method body, and nothing
    else. *)
Theorem managed_walker_footprint self (h : gmap loc Obj) (n l : loc) :
  (l < n)%nat →
  let run := get_functions self (mkStore h n []) in
  heap run.2 !! l = h !! l
  ∧ if decide (NoDup ((get_dotnet_managed_method_bodies (pe self)).*1))
    then next_loc run.2 = (n + 2 * length (get_dotnet_managed_method_bodies (pe self)))%nat
    else run.1 = Raise AssertionError ∧ (n ≤ next_loc run.2)%nat.
Proof.
  intros Hl. cbn zeta.
  set (bodies := get_dotnet_managed_method_bodies (pe self)).
  pose proof (foldM_rel (keeps_below n) (add_method self) bodies
                (add_method_keeps_below self n) [] (mkStore h n [])) as Hcreate.
  destruct (decide (NoDup (bodies.*1))) as [Hnd|Hdup].
  - destruct (get_functions_steps self h n Hnd)
      as (σ1 & σ2 & Hrun1 & _ & Hn1 & Hrun2 & (_ & Hn2 & _) & ->).
    fold bodies in Hrun1, Hn1, Hrun2 |- *. cbn [snd heap next_loc].
    pose proof (calculate_calls_keeps_outside (handles_from self n bodies) σ1) as Hpass.
    rewrite Hrun2 in Hpass. cbn [snd] in Hpass. split; [|congruence].
    rewrite Hpass.
    + unfold create_method_lookup_table in Hrun1. fold bodies in Hrun1.
      rewrite Hrun1 in Hcreate. by apply Hcreate.
    + rewrite handles_from_locs, elem_of_seq. lia.
  - pose proof (create_table_collision self bodies [] (mkStore h n [])) as Hfail.
    unfold get_functions, bind, create_method_lookup_table. fold bodies.
    change (@nil (Address * FH)) with (table_of []) in Hcreate |- *.
    destruct (foldM (add_method self) (table_of []) bodies (mkStore h n [])) as [r σ1].
    cbn [fst snd] in *. rewrite Hfail by (by intros [? _]).
    destruct (Hcreate (le_n n)) as [Hn1 Hframe]. cbn [snd fst heap] in *.
    split; [by apply Hframe | done].
Qed.

Lemma managed_walker_footprint_witness :
  heap (get_functions scenario (mkStore {[0%nat := OSet {[NO_ADDRESS]}]} 1%nat [])).2 !! 0%nat
    = ({[0%nat := OSet {[NO_ADDRESS]}]} : gmap loc Obj) !! 0%nat
  ∧ if decide (NoDup ((get_dotnet_managed_method_bodies (pe scenario)).*1))
    then next_loc (get_functions scenario (mkStore {[0%nat := OSet {[NO_ADDRESS]}]} 1%nat [])).2
         = (1 + 2 * length (get_dotnet_managed_method_bodies (pe scenario)))%nat
    else (get_functions scenario (mkStore {[0%nat := OSet {[NO_ADDRESS]}]} 1%nat [])).1
         = Raise AssertionError
         ∧ (1 ≤ next_loc
                  (get_functions scenario
                     (mkStore {[0%nat := OSet {[NO_ADDRESS]}]} 1%nat [])).2)%nat.
Proof.
  apply (managed_walker_footprint scenario {[0%nat := OSet {[NO_ADDRESS]}]} 1%nat 0%nat).
  lia.
Defined.

Lemma for_trace_length {Y A} (xs : list A) (body : A → M Y unit) (c : A → nat) :
  (∀ x σ, x ∈ xs →
     length (trace (body x σ).2) = (length (trace σ) + c x)%nat ∧ (body x σ).1 = Ok ()) →
  ∀ σ, length (trace (for_ xs body σ).2) = (length (trace σ) + sum_list_with c xs)%nat
       ∧ (for_ xs body σ).1 = Ok ().
Proof.
  induction xs as [|x xs IH]; intros Hbody σ; simpl.
  - split; [lia | done].
  - unfold bind. destruct (Hbody x σ (list_elem_of_here _ _)) as [Hlen Hok].
    destruct (body x σ) as [[[]|e] σ1]; cbn [fst snd] in *; [|done].
    destruct (IH (λ y σ' Hy, Hbody y σ' (list_elem_of_further _ _ _ Hy)) σ1) as [Hlen' Hok'].
    split; [lia | done].
Qed.

Lemma table_get_is_Some (fhs : list FH) (tokens : list Z) (tok : Z) :
  FunctionHandle.address <$> fhs = DNTokenAddress <$> tokens →
  is_Some (dict_get (table_of fhs) (DNTokenAddress tok)) ↔ tok ∈ tokens.
Proof.
  intros Haddr. rewrite <- not_eq_None_Some, dict_get_None, table_of_keys, Haddr.
  assert (Inj (=) (=) DNTokenAddress) by (by intros ?? [= ->]).
  rewrite (list_elem_of_fmap_inj DNTokenAddress). split; [apply dec_stable | by intros ? ?].
Qed.

Lemma record_call_count (fhs : list FH) (tokens : list Z) fh insn (σ : Store FH) :
  FunctionHandle.address <$> fhs = DNTokenAddress <$> tokens →
  length (trace (record_call (table_of fhs) fh insn σ).2)
    = (length (trace σ) + adds_of tokens insn)%nat
  ∧ (record_call (table_of fhs) fh insn σ).1 = Ok ().
Proof.
  intros Haddr. unfold record_call, adds_of.
  destruct (is_call _); simpl; [|split; [lia | done]].
  pose proof (table_get_is_Some fhs tokens (Token.value (Instruction.operand insn)) Haddr)
    as Hsome.
  destruct (dict_get _ _) as [dest|]; unfold bind, ret, set_add; cbn [fst snd trace].
  - rewrite bool_decide_eq_true_2 by (by apply Hsome). rewrite !length_app. simpl.
    split; [lia | done].
  - rewrite bool_decide_eq_false_2.
    + rewrite !length_app. simpl. split; [lia | done].
    + intros Hin. apply Hsome in Hin. by destruct Hin.
Qed.

Lemma calculate_calls_count (fhs : list FH) (tokens : list Z) (σ : Store FH) :
  FunctionHandle.address <$> fhs = DNTokenAddress <$> tokens →
  length (trace (calculate_calls (table_of fhs) σ).2)
  = (length (trace σ)
     + sum_list_with
         (λ fh, sum_list_with (adds_of tokens)
                  (CilMethodBody.instructions (FunctionHandle.inner fh))) fhs)%nat.
Proof.
  intros Haddr. unfold calculate_calls. rewrite table_of_values.
  apply for_trace_length. intros fh σ1 _.
  apply for_trace_length. intros insn σ2 _. by apply record_call_count.
Qed.

Lemma handles_from_sum self n bodies (g : CilMethodBody.t → nat) :
  sum_list_with (λ fh : FH, g (FunctionHandle.inner fh)) (handles_from self n bodies)
  = sum_list_with (λ item, g item.2) bodies.
Proof. revert n. induction bodies as [|item rest IH]; intros n; simpl; [done | by rewrite IH]. Qed.

Lemma filter_no_yield {Y} (t : list (Event Y)) :
  no_yield t → filter (λ e, is_yield e = false) t = t.
Proof.
  induction 1 as [|e t He _ IH]; [done|].
  by rewrite filter_cons_True, IH.
Qed.

Lemma filter_yields {Y} (h : gmap loc Obj) (ys : list Y) :
  filter (λ e, is_yield e = false) ((λ y, EvYield y h) <$> ys) = [].
Proof.
  induction ys as [|y ys IH]; [done|]. csimpl. by rewrite filter_cons_False.
Qed.

(** What a successful run of the managed walker comes to. *)
Lemma get_functions_summary self (h : gmap loc Obj) (n : loc) :
  NoDup ((get_dotnet_managed_method_bodies (pe self)).*1) →
  let bodies := get_dotnet_managed_method_bodies (pe self) in
  let fhs := handles_from self n bodies in
  ∃ σ' adds,
    get_functions self (mkStore h n []) = (Ok (), σ')
    ∧ trace σ' = adds ++ ((λ fh, EvYield fh (heap σ')) <$> fhs)
    ∧ no_yield adds
    ∧ length adds
      = sum_list_with
          (λ item, sum_list_with (adds_of (bodies.*1)) (CilMethodBody.instructions item.2))
          bodies
    ∧ graph_is fhs (call_edges fhs) (heap σ')
    ∧ next_loc σ' = (n + 2 * length bodies)%nat
    ∧ ∀ l, (l < n)%nat → heap σ' !! l = h !! l.
Proof.
  intros Hnd. cbn zeta. set (bodies := get_dotnet_managed_method_bodies (pe self)) in *.
  destruct (get_functions_steps self h n Hnd)
    as (σ1 & σ2 & Hrun1 & Ht1 & Hn1 & Hrun2 & (Hg & Hn2 & adds & Ht2 & Hadds & _) & ->).
  fold bodies in Hrun1, Hn1, Hrun2, Hg |- *. rewrite Ht1 in Ht2. cbn [app] in Ht2.
  exists (mkStore (heap σ2) (next_loc σ2)
            (trace σ2 ++ ((λ fh, EvYield fh (heap σ2)) <$> handles_from self n bodies))), adds.
  cbn [heap next_loc trace]. rewrite Ht2.
  split; [done|]. split; [done|]. split; [done|]. split; [|split; [done|split; [congruence|]]].
  - assert (FunctionHandle.address <$> handles_from self n bodies
            = DNTokenAddress <$> bodies.*1) as Haddr
      by (by rewrite handles_from_address, <- list_fmap_compose).
    pose proof (calculate_calls_count (handles_from self n bodies) (bodies.*1) σ1 Haddr)
      as Hcount.
    rewrite Hrun2, Ht1 in Hcount. cbn [snd length] in Hcount. rewrite Ht2 in Hcount.
    rewrite Hcount. cbn [Nat.add].
    apply (handles_from_sum self n bodies
             (λ b, sum_list_with (adds_of (bodies.*1)) (CilMethodBody.instructions b))).
  - intros l Hl.
    pose proof (calculate_calls_keeps_outside (handles_from self n bodies) σ1) as Hpass.
    rewrite Hrun2 in Hpass. cbn [snd] in Hpass.
    rewrite Hpass by (rewrite handles_from_locs, elem_of_seq; lia).
    pose proof (foldM_rel (keeps_below n) (add_method self) bodies
                  (add_method_keeps_below self n) [] (mkStore h n [])) as Hcreate.
    unfold create_method_lookup_table in Hrun1. fold bodies in Hrun1.
    rewrite Hrun1 in Hcreate. by apply Hcreate.
Qed.

(** X3. After a successful run the two kinds of set mirror each other: for
    yielded methods [m] and [m'], the address of [m'] is in the [calls_to]
    set of [m] exactly when the address of [m] is in the [calls_from] set of
    [m']. *)
Theorem call_sets_mirror self (h : gmap loc Obj) (n : loc) :
  NoDup ((get_dotnet_managed_method_bodies (pe self)).*1) →
  ∃ σ',
    get_functions self (mkStore h n []) = (Ok (), σ')
    ∧ ∀ m m', m ∈ yielded (trace σ') → m' ∈ yielded (trace σ') →
        FunctionHandle.address m' ∈ read_set (heap σ') (Ctx.calls_to (FunctionHandle.ctx m))
        ↔ FunctionHandle.address m ∈ read_set (heap σ') (Ctx.calls_from (FunctionHandle.ctx m')).
Proof.
  intros Hnd.
  destruct (get_functions_summary self h n Hnd) as (σ' & adds & Hrun & Ht & Hadds & _ & Hg & _).
  cbn zeta in *. exists σ'. split; [done|]. rewrite Ht, (run_yielded _ _ _ Hadds).
  intros m m' Hm Hm'.
  assert (NoDup (FunctionHandle.address <$>
                   handles_from self n (get_dotnet_managed_method_bodies (pe self)))) as Haddr.
  { rewrite handles_from_address. by apply bodies_addresses_NoDup. }
  destruct (graph_is_calls _ _ Haddr Hg m (FunctionHandle.address m') Hm) as [_ Hto].
  destruct (graph_is_calls _ _ Haddr Hg m' (FunctionHandle.address m) Hm') as [Hfrom _].
  rewrite Hto, Hfrom. split.
  - intros (m'' & Hm'' & Heq & Hcalls).
    by apply (NoDup_fmap_eq FunctionHandle.address _ _ _ Haddr Hm'' Hm') in Heq as ->.
  - intros Hcalls. by exists m'.
Qed.

Lemma call_sets_mirror_witness :
  ∃ σ',
    get_functions scenario (mkStore ∅ 0%nat []) = (Ok (), σ')
    ∧ ∀ m m', m ∈ yielded (trace σ') → m' ∈ yielded (trace σ') →
        FunctionHandle.address m' ∈ read_set (heap σ') (Ctx.calls_to (FunctionHandle.ctx m))
        ↔ FunctionHandle.address m ∈ read_set (heap σ') (Ctx.calls_from (FunctionHandle.ctx m')).
Proof.
  apply (call_sets_mirror scenario ∅ 0%nat).
  apply (bool_decide_unpack _). vm_compute. exact I.
Defined.

Lemma for_trace_app {Y A} (xs : list A) (body : A → M Y unit) (ev : A → list (Event Y)) :
  (∀ x σ, x ∈ xs → (body x σ).1 = Ok () ∧ trace (body x σ).2 = trace σ ++ ev x) →
  ∀ σ, (for_ xs body σ).1 = Ok () ∧ trace (for_ xs body σ).2 = trace σ ++ (xs ≫= ev).
Proof.
  induction xs as [|x xs IH]; intros Hbody σ; csimpl.
  - by rewrite app_nil_r.
  - unfold bind. destruct (Hbody x σ (list_elem_of_here _ _)) as [Hok Ht].
    destruct (body x σ) as [[[]|e] σ1]; cbn [fst snd] in *; [|done].
    destruct (IH (λ y σ' Hy, Hbody y σ' (list_elem_of_further _ _ _ Hy)) σ1) as [Hok' Ht'].
    split; [done|]. by rewrite Ht', Ht, <- app_assoc.
Qed.

(** The handles of the table that stand at an address: the one the lookup
    finds, or none. *)
Lemma filter_address (fhs : list FH) (a : Address) :
  NoDup (FunctionHandle.address <$> fhs) →
  filter (λ m, FunctionHandle.address m = a) fhs
  = match dict_get (table_of fhs) a with Some dest => [dest] | None => [] end.
Proof.
  induction fhs as [|x fhs IH]; intros Hnd; [done|].
  rewrite fmap_cons in Hnd. apply NoDup_cons in Hnd as [Hx Hnd]. rewrite filter_cons.
  change (table_of (x :: fhs)) with ((FunctionHandle.address x, x) :: table_of fhs).
  cbn [dict_get]. destruct (decide (FunctionHandle.address x = a)) as [Heq|Hne]; [|by apply IH].
  f_equal. etrans; [by apply IH|].
  assert (dict_get (table_of fhs) a = None) as ->; [|done].
  apply dict_get_None. by rewrite table_of_keys, <- Heq.
Qed.

Lemma record_call_trace (fhs : list FH) fh insn (σ : Store FH) :
  NoDup (FunctionHandle.address <$> fhs) →
  (record_call (table_of fhs) fh insn σ).1 = Ok ()
  ∧ trace (record_call (table_of fhs) fh insn σ).2 = trace σ ++ adds_for fhs fh insn.
Proof.
  intros Hnd. unfold record_call, adds_for.
  destruct (is_call _); simpl; [|by rewrite app_nil_r].
  fold (target insn). rewrite (filter_address fhs (target insn) Hnd).
  destruct (dict_get _ _) as [dest|]; unfold bind, ret, set_add; cbn [fst snd trace].
  - split; [done|]. by rewrite <- app_assoc.
  - done.
Qed.

Lemma calculate_calls_trace (fhs : list FH) (σ : Store FH) :
  NoDup (FunctionHandle.address <$> fhs) →
  trace (calculate_calls (table_of fhs) σ).2
  = trace σ ++ (fhs ≫= λ m, CilMethodBody.instructions (FunctionHandle.inner m)
                               ≫= adds_for fhs m).
Proof.
  intros Hnd. unfold calculate_calls. rewrite table_of_values.
  apply (for_trace_app fhs _
           (λ m, CilMethodBody.instructions (FunctionHandle.inner m) ≫= adds_for fhs m)).
  intros m σ1 _. apply for_trace_app. intros insn σ2 _. by apply record_call_trace.
Qed.

(** X5. In a successful run the [add]s of the call-graph pass are, method
    after method and instruction after instruction: for an instruction of
    the call family, one [add] of the caller's address to the [calls_to] set
    of the yielded method that the operand names, if there is one, and then
    one [add] of the operand's address to the [calls_from] set of the caller;
    for any other instruction, none.  Their number is one per call
    instruction, and one more per call instruction whose operand is the token
    of a method body. *)
Theorem call_graph_pass_adds self (h : gmap loc Obj) (n : loc) :
  NoDup ((get_dotnet_managed_method_bodies (pe self)).*1) →
  ∃ σ',
    get_functions self (mkStore h n []) = (Ok (), σ')
    ∧ filter (λ e, is_yield e = false) (trace σ')
      = (yielded (trace σ')
           ≫= λ m, CilMethodBody.instructions (FunctionHandle.inner m)
                     ≫= adds_for (yielded (trace σ')) m)
    ∧ length (filter (λ e, is_yield e = false) (trace σ'))
      = sum_list_with
          (λ item,
             sum_list_with (adds_of ((get_dotnet_managed_method_bodies (pe self)).*1))
               (CilMethodBody.instructions item.2))
          (get_dotnet_managed_method_bodies (pe self)).
Proof.
  intros Hnd.
  destruct (get_functions_summary self h n Hnd)
    as (σ' & adds & Hrun & Ht & Hadds & Hcount & _).
  destruct (get_functions_steps self h n Hnd)
    as (σ1 & σ2 & _ & Ht1 & _ & Hrun2 & _ & Hrun').
  cbn zeta in *. set (fhs := handles_from self n (get_dotnet_managed_method_bodies (pe self))) in *.
  assert (NoDup (FunctionHandle.address <$> fhs)) as Haddr.
  { unfold fhs. rewrite handles_from_address. by apply bodies_addresses_NoDup. }
  pose proof (calculate_calls_trace fhs σ1 Haddr) as Hlog.
  rewrite Hrun2, Ht1 in Hlog. cbn [snd app] in Hlog.
  rewrite Hrun in Hrun'. injection Hrun' as ->. cbn [heap trace] in Ht.
  rewrite Hlog in Ht. apply app_inv_tail in Ht. subst adds.
  exists (mkStore (heap σ2) (next_loc σ2) (trace σ2 ++ ((λ fh, EvYield fh (heap σ2)) <$> fhs))).
  split; [done|]. cbn [trace].
  rewrite filter_app, filter_yields, app_nil_r, Hlog, (filter_no_yield _ Hadds).
  rewrite yielded_app, (yielded_no_yield _ Hadds), yielded_yields. cbn [app].
  done.
Qed.

Lemma call_graph_pass_adds_witness :
  ∃ σ',
    get_functions scenario (mkStore ∅ 0%nat []) = (Ok (), σ')
    ∧ filter (λ e, is_yield e = false) (trace σ')
      = (yielded (trace σ')
           ≫= λ m, CilMethodBody.instructions (FunctionHandle.inner m)
                     ≫= adds_for (yielded (trace σ')) m)
    ∧ length (filter (λ e, is_yield e = false) (trace σ')) = 5%nat.
Proof.
  apply (call_graph_pass_adds scenario ∅ 0%nat).
  apply (bool_decide_unpack _). vm_compute. exact I.
Defined.

(** X8. The handles that the managed walker yields have pairwise distinct
    addresses, whatever the sample: the assertion of the first loop stops a
    run that would yield two handles at one address. *)
Theorem yielded_addresses_distinct self (h : gmap loc Obj) (n : loc) :
  NoDup (FunctionHandle.address <$> yielded (trace (get_functions self (mkStore h n [])).2)).
Proof.
  rewrite get_functions_yielded. destruct (decide _) as [Hnd|_]; [|constructor].
  rewrite handles_from_address. by apply bodies_addresses_NoDup.
Qed.

Lemma handles_from_same_body self (n n' : loc) bodies (m m' : FH) :
  NoDup (bodies.*1) →
  m ∈ handles_from self n bodies → m' ∈ handles_from self n' bodies →
  FunctionHandle.address m = FunctionHandle.address m' →
  FunctionHandle.inner m = FunctionHandle.inner m'.
Proof.
  intros Hnd Hm Hm' Heq.
  destruct (handles_from_elem self n bodies m Hm) as (tok & Ha & Hin).
  destruct (handles_from_elem self n' bodies m' Hm') as (tok' & Ha' & Hin').
  rewrite Ha, Ha' in Heq. injection Heq as <-.
  pose proof (dict_get_NoDup bodies tok _ Hnd Hin) as Hget.
  pose proof (dict_get_NoDup bodies tok _ Hnd Hin') as Hget'.
  congruence.
Qed.

Lemma handles_from_counterpart self (n n' : loc) bodies (m : FH) :
  m ∈ handles_from self n bodies →
  ∃ m', m' ∈ handles_from self n' bodies
        ∧ FunctionHandle.address m' = FunctionHandle.address m
        ∧ FunctionHandle.inner m' = FunctionHandle.inner m.
Proof.
  revert n n'. induction bodies as [|item rest IH]; intros n n' Hm; simpl in Hm.
  - by apply elem_of_nil in Hm.
  - apply elem_of_cons in Hm as [->|Hm].
    + exists (handle_at self n' item). split; [apply elem_of_cons; by left | done].
    + destruct (IH _ (S (S n')) Hm) as (m' & Hm' & ? & ?).
      exists m'. split; [apply elem_of_cons; by right | done].
Qed.

Lemma calls_inner (m m' : FH) (a : Address) :
  FunctionHandle.inner m = FunctionHandle.inner m' → calls m a ↔ calls m' a.
Proof. unfold calls. by intros ->. Qed.

(** X6. The managed walker can be run again.  A second run, started in the
    store the first one left, yields handles for the same methods in the same
    order; their sets are new objects, none of them a set of the first run;
    the sets of the first run stay as they were; and corresponding handles
    of the two runs have equal [calls_from] and equal [calls_to] sets. *)
Theorem managed_walker_rerun self (h : gmap loc Obj) (n : loc) :
  NoDup ((get_dotnet_managed_method_bodies (pe self)).*1) →
  ∃ σ1 σ2,
    get_functions self (mkStore h n []) = (Ok (), σ1)
    ∧ get_functions self (mkStore (heap σ1) (next_loc σ1) []) = (Ok (), σ2)
    ∧ (λ m : FH, (FunctionHandle.address m, FunctionHandle.inner m)) <$> yielded (trace σ2)
      = (λ m : FH, (FunctionHandle.address m, FunctionHandle.inner m)) <$> yielded (trace σ1)
    ∧ (∀ l, l ∈ set_locs (yielded (trace σ1)) → l ∉ set_locs (yielded (trace σ2)))
    ∧ (∀ l, l ∈ set_locs (yielded (trace σ1)) → read_set (heap σ2) l = read_set (heap σ1) l)
    ∧ ∀ m1 m2, m1 ∈ yielded (trace σ1) → m2 ∈ yielded (trace σ2) →
        FunctionHandle.address m1 = FunctionHandle.address m2 →
        read_set (heap σ2) (Ctx.calls_from (FunctionHandle.ctx m2))
          = read_set (heap σ1) (Ctx.calls_from (FunctionHandle.ctx m1))
        ∧ read_set (heap σ2) (Ctx.calls_to (FunctionHandle.ctx m2))
          = read_set (heap σ1) (Ctx.calls_to (FunctionHandle.ctx m1)).
Proof.
  intros Hnd. set (bodies := get_dotnet_managed_method_bodies (pe self)) in *.
  destruct (get_functions_summary self h n Hnd)
    as (σ1 & adds1 & Hrun1 & Ht1 & Hadds1 & _ & Hg1 & Hn1 & _).
  destruct (get_functions_summary self (heap σ1) (next_loc σ1) Hnd)
    as (σ2 & adds2 & Hrun2 & Ht2 & Hadds2 & _ & Hg2 & _ & Hframe).
  cbn zeta in *. fold bodies in Ht1, Hg1, Hn1, Ht2, Hg2.
  exists σ1, σ2. split; [done|]. split; [done|].
  rewrite Ht1, Ht2, (run_yielded _ _ _ Hadds1), (run_yielded _ _ _ Hadds2).
  set (fhs1 := handles_from self n bodies) in *.
  set (fhs2 := handles_from self (next_loc σ1) bodies) in *.
  assert (NoDup (FunctionHandle.address <$> fhs1)) as Haddr1.
  { unfold fhs1. rewrite handles_from_address. by apply bodies_addresses_NoDup. }
  assert (NoDup (FunctionHandle.address <$> fhs2)) as Haddr2.
  { unfold fhs2. rewrite handles_from_address. by apply bodies_addresses_NoDup. }
  split; [by unfold fhs1, fhs2; rewrite !handles_from_items|].
  split; [|split].
  - unfold fhs1, fhs2. intros l. rewrite !handles_from_locs, !elem_of_seq. lia.
  - intros l Hl. unfold read_set. rewrite Hframe; [done|].
    unfold fhs1 in Hl. rewrite handles_from_locs, elem_of_seq in Hl. lia.
  - intros m1 m2 Hm1 Hm2 Heq.
    assert (FunctionHandle.inner m1 = FunctionHandle.inner m2) as Hinner
      by (by apply (handles_from_same_body self n (next_loc σ1) bodies)).
    split; apply set_eq; intros a.
    + destruct (graph_is_calls _ _ Haddr1 Hg1 m1 a Hm1) as [-> _].
      destruct (graph_is_calls _ _ Haddr2 Hg2 m2 a Hm2) as [-> _].
      symmetry. by apply calls_inner.
    + destruct (graph_is_calls _ _ Haddr1 Hg1 m1 a Hm1) as [_ ->].
      destruct (graph_is_calls _ _ Haddr2 Hg2 m2 a Hm2) as [_ ->].
      rewrite Heq. split.
      * intros (m & Hm & Ha & Hcalls).
        destruct (handles_from_counterpart self _ n bodies m Hm) as (m' & Hm' & Ha' & Hi').
        exists m'. split; [done|]. split; [congruence|]. by apply (calls_inner m' m).
      * intros (m & Hm & Ha & Hcalls).
        destruct (handles_from_counterpart self _ (next_loc σ1) bodies m Hm)
          as (m' & Hm' & Ha' & Hi').
        exists m'. split; [done|]. split; [congruence|]. by apply (calls_inner m' m).
Qed.

Lemma managed_walker_rerun_witness :
  ∃ σ1 σ2,
    get_functions scenario (mkStore ∅ 0%nat []) = (Ok (), σ1)
    ∧ get_functions scenario (mkStore (heap σ1) (next_loc σ1) []) = (Ok (), σ2)
    ∧ (λ m : FH, (FunctionHandle.address m, FunctionHandle.inner m)) <$> yielded (trace σ2)
      = (λ m : FH, (FunctionHandle.address m, FunctionHandle.inner m)) <$> yielded (trace σ1)
    ∧ (∀ l, l ∈ set_locs (yielded (trace σ1)) → l ∉ set_locs (yielded (trace σ2)))
    ∧ (∀ l, l ∈ set_locs (yielded (trace σ1)) → read_set (heap σ2) l = read_set (heap σ1) l)
    ∧ ∀ m1 m2, m1 ∈ yielded (trace σ1) → m2 ∈ yielded (trace σ2) →
        FunctionHandle.address m1 = FunctionHandle.address m2 →
        read_set (heap σ2) (Ctx.calls_from (FunctionHandle.ctx m2))
          = read_set (heap σ1) (Ctx.calls_from (FunctionHandle.ctx m1))
        ∧ read_set (heap σ2) (Ctx.calls_to (FunctionHandle.ctx m2))
          = read_set (heap σ1) (Ctx.calls_to (FunctionHandle.ctx m1)).
Proof.
  apply (managed_walker_rerun scenario ∅ 0%nat).
  apply (bool_decide_unpack _). vm_compute. exact I.
Defined.

(** * Further properties of the instruction walkers *)

(** X7. When the instructions of a managed block come with strictly
    increasing offsets, the addresses of their handles all have the block's
    address as base and strictly increasing offsets, so no two instruction
    handles of the block have the same address. *)
Theorem managed_insn_offsets_increase (fh : FH) (bbh : BBHandle.t CilMethodBody.t) :
  Sorted Z.lt (Instruction.offset <$> CilMethodBody.instructions (BBHandle.inner bbh)) →
  ∃ offsets,
    InsnHandle.address <$> get_instructions fh bbh
      = DNTokenOffsetAddress (BBHandle.address bbh) <$> offsets
    ∧ Sorted Z.lt offsets
    ∧ NoDup (InsnHandle.address <$> get_instructions fh bbh).
Proof.
  intros Hsorted.
  set (origin := CilMethodBody.offset (FunctionHandle.inner fh)
                 + CilMethodBody.header_size (FunctionHandle.inner fh)).
  set (insns := CilMethodBody.instructions (BBHandle.inner bbh)) in *.
  assert (InsnHandle.address <$> get_instructions fh bbh
          = DNTokenOffsetAddress (BBHandle.address bbh)
              <$> ((λ o, o - origin) <$> (Instruction.offset <$> insns))) as Heq.
  { unfold get_instructions. fold insns. by rewrite <- !list_fmap_compose. }
  assert (Sorted Z.lt ((λ o, o - origin) <$> (Instruction.offset <$> insns))) as Hoffs.
  { apply (Sorted_fmap (λ o, o - origin) Z.lt Z.lt); [|done]. intros x y ?. lia. }
  exists ((λ o, o - origin) <$> (Instruction.offset <$> insns)).
  split; [done|]. split; [done|]. rewrite Heq.
  assert (Inj (=) (=) (DNTokenOffsetAddress (BBHandle.address bbh))) by (by intros ?? [= ->]).
  apply (NoDup_fmap_2 _). apply StronglySorted_lt_NoDup.
  by apply (Sorted_StronglySorted _).
Qed.

Lemma managed_insn_offsets_increase_witness :
  ∃ offsets,
    InsnHandle.address
      <$> get_instructions (handle_at scenario 0 (0x06000001, method_A))
            (BBHandle.mk (DNTokenAddress 0x06000001) method_A)
      = DNTokenOffsetAddress (DNTokenAddress 0x06000001) <$> offsets
    ∧ Sorted Z.lt offsets
    ∧ NoDup (InsnHandle.address
               <$> get_instructions (handle_at scenario 0 (0x06000001, method_A))
                     (BBHandle.mk (DNTokenAddress 0x06000001) method_A)).
Proof.
  apply (managed_insn_offsets_increase
           (handle_at scenario 0 (0x06000001, method_A))
           (BBHandle.mk (DNTokenAddress 0x06000001) method_A)).
  cbn. repeat constructor; lia.
Defined.


(** * Further properties of the native extractor *)

(** X9. The native base address is read from the first file of the
    workspace only, whatever other files are loaded.  The call fails with an
    index error exactly when no file is loaded, with a key error exactly when
    the first file's metadata has no image base, and with an assertion error
    exactly when that image base is negative; otherwise it gives the image
    base of the first file as an absolute address. *)
Theorem native_base_address_outcome (self : Viv.VivisectFeatureExtractor.t) :
  let filemeta := Viv.Workspace.filemeta (Viv.VivisectFeatureExtractor.vw self) in
  let result := Viv.VivisectFeatureExtractor.get_base_address self in
  (result = Raise IndexError ↔ filemeta = [])
  ∧ (result = Raise KeyError
     ↔ ∃ name meta rest,
         filemeta = (name, meta) :: rest ∧ meta !! "imagebase"%string = None)
  ∧ (result = Raise AssertionError
     ↔ ∃ name meta rest imagebase,
         filemeta = (name, meta) :: rest
         ∧ meta !! "imagebase"%string = Some imagebase ∧ imagebase < 0)
  ∧ ∀ imagebase,
      result = Ok (AbsoluteVirtualAddress imagebase)
      ↔ ∃ name meta rest,
          filemeta = (name, meta) :: rest
          ∧ meta !! "imagebase"%string = Some imagebase ∧ 0 ≤ imagebase.
Proof.
  cbn zeta. unfold Viv.VivisectFeatureExtractor.get_base_address.
  destruct (Viv.Workspace.filemeta _) as [|[name meta] rest]; cbn.
  { split; [done|]. split; [|split; [|intros b]];
      (split; [done|]); [intros (? & ? & ? & ? & ?) | intros (? & ? & ? & ? & ? & ?)
                        | intros (? & ? & ? & ? & ?)]; done. }
  destruct (meta !! "imagebase"%string) as [b|] eqn:Hb.
  - destruct (decide (0 ≤ b)) as [Hpos|Hneg].
    + rewrite new_AbsoluteVirtualAddress_nonneg by done.
      split; [done|]. split; [|split].
      * split; [done|]. intros (? & ? & ? & [= <- <- <-] & ?). congruence.
      * split; [done|]. intros (? & ? & ? & b' & [= <- <- <-] & Hb' & ?).
        rewrite Hb in Hb'. injection Hb' as <-. lia.
      * intros b'. split; [intros [= <-]; eauto 10|].
        intros (? & ? & ? & [= <- <- <-] & Hb' & ?). congruence.
    + rewrite new_AbsoluteVirtualAddress_neg by lia.
      split; [done|]. split; [|split].
      * split; [done|]. intros (? & ? & ? & [= <- <- <-] & ?). congruence.
      * split; [|done]. intros _. exists name, meta, rest, b. split; [done|]. split; [done | lia].
      * intros b'. split; [done|].
        intros (? & ? & ? & [= <- <- <-] & Hb' & ?). rewrite Hb in Hb'. injection Hb' as <-. lia.
  - split; [done|]. split; [|split].
    + split; [eauto | done].
    + split; [done|]. intros (? & ? & ? & ? & [= <- <- <-] & ? & ?). congruence.
    + intros b'. split; [done|]. intros (? & ? & ? & [= <- <- <-] & ? & ?). congruence.
Qed.

Lemma native_handle_address_inj (self : Viv.VivisectFeatureExtractor.t) (n : loc) :
  Inj (=) (=) (λ va, FunctionHandle.address (native_handle self n va)).
Proof. by intros ?? [= ->]. Qed.

(** The walker and the base address on a workspace with a negative function
    address and a negative image base: both calls fail on the assertion of
    the address constructor, the walker with nothing yielded. *)
Example native_negative_addresses :
  Viv.VivisectFeatureExtractor.get_functions native_sample_negative (mkStore ∅ 0%nat [])
    = (Raise AssertionError, mkStore {[0%nat := ODict ∅]} 1%nat [])
  ∧ Viv.VivisectFeatureExtractor.get_base_address native_sample_negative
    = Raise AssertionError.
Proof. split; reflexivity. Qed.

(** X10. The native walker succeeds exactly when no address that the
    workspace lists is negative; when one is, it fails with an assertion
    error before it yields any handle, because the sort brings the negative
    addresses to the front.  It adds to no set.  When it succeeds it yields
    one handle per listed address, keeping duplicates, and the handles have
    pairwise distinct addresses exactly when the listed addresses are
    pairwise distinct.  Each handle wraps the function at the very address
    the handle carries, a listed one that is not negative, and holds the
    extractor's minimum string length. *)
Theorem native_handles_match_workspace (self : Viv.VivisectFeatureExtractor.t)
    (h : gmap loc Obj) (n : loc) :
  let vw := Viv.VivisectFeatureExtractor.vw self in
  let run := Viv.VivisectFeatureExtractor.get_functions self (mkStore h n []) in
  Forall (λ e, is_yield e = true) (trace run.2)
  ∧ Forall (λ fh, ∃ va,
              va ∈ Viv.Workspace.getFunctions vw
              ∧ 0 ≤ va
              ∧ FunctionHandle.address fh = AbsoluteVirtualAddress va
              ∧ FunctionHandle.inner fh = Viv.Function.mk vw va
              ∧ Viv.VivisectFeatureExtractor.Ctx.min_str_len (FunctionHandle.ctx fh)
                = Viv.VivisectFeatureExtractor.min_str_len self)
           (yielded (trace run.2))
  ∧ if decide (Forall (λ va, 0 ≤ va) (Viv.Workspace.getFunctions vw))
    then run.1 = Ok ()
         ∧ length (yielded (trace run.2)) = length (Viv.Workspace.getFunctions vw)
         ∧ (NoDup (FunctionHandle.address <$> yielded (trace run.2))
            ↔ NoDup (Viv.Workspace.getFunctions vw))
    else run.1 = Raise AssertionError ∧ yielded (trace run.2) = [].
Proof.
  cbn zeta. rewrite native_yielded, native_get_functions_run.
  set (vas := Viv.Workspace.getFunctions (Viv.VivisectFeatureExtractor.vw self)).
  pose proof (merge_sort_Permutation Z.le vas) as Hperm.
  destruct (decide (Forall (λ va, 0 ≤ va) vas)) as [Hall|Hneg]; cbn [fst snd trace].
  - split; [|split; [|split; [done|split]]].
    + apply Forall_forall. intros e He. by apply list_elem_of_fmap in He as (va & -> & _).
    + apply Forall_forall. intros fh Hfh. apply list_elem_of_fmap in Hfh as (va & -> & Hva).
      rewrite Hperm in Hva. exists va. rewrite Forall_forall in Hall. by split; [|split; [apply Hall|]].
    + by rewrite length_fmap, Hperm.
    + rewrite <- list_fmap_compose.
      pose proof (native_handle_address_inj self n) as Hinj.
      rewrite (NoDup_fmap (λ va, FunctionHandle.address (native_handle self n va))).
      by rewrite Hperm.
  - split; [constructor|]. split; [constructor | done].
Qed.

(** X11. The native walker allocates one object, its scratch cache, at the
    next free location, and leaves every other object of the store as it
    was. *)
Theorem native_walker_footprint (self : Viv.VivisectFeatureExtractor.t)
    (h : gmap loc Obj) (n l : loc) :
  l ≠ n →
  let run := Viv.VivisectFeatureExtractor.get_functions self (mkStore h n []) in
  heap run.2 !! l = h !! l
  ∧ heap run.2 !! n = Some (ODict ∅)
  ∧ next_loc run.2 = S n.
Proof.
  intros Hl. cbn zeta. destruct (native_final_heap self h n) as [-> ->].
  by rewrite lookup_insert_ne, lookup_insert_eq.
Qed.

Lemma native_walker_footprint_witness :
  heap (Viv.VivisectFeatureExtractor.get_functions native_sample
          (mkStore {[0%nat := ODict {["seen"%string := 1]}]} 1%nat [])).2 !! 0%nat
    = ({[0%nat := ODict {["seen"%string := 1]}]} : gmap loc Obj) !! 0%nat
  ∧ heap (Viv.VivisectFeatureExtractor.get_functions native_sample
            (mkStore {[0%nat := ODict {["seen"%string := 1]}]} 1%nat [])).2 !! 1%nat
    = Some (ODict ∅)
  ∧ next_loc (Viv.VivisectFeatureExtractor.get_functions native_sample
                (mkStore {[0%nat := ODict {["seen"%string := 1]}]} 1%nat [])).2
    = 2%nat.
Proof.
  apply (native_walker_footprint native_sample {[0%nat := ODict {["seen"%string := 1]}]} 1%nat 0%nat).
  lia.
Defined.

(** X12. The scratch cache is shared within one enumeration, not between
    enumerations.  A second enumeration, started in any later store, gives
    its handles a cache of its own: it is not the cache of the handles of the
    first, it is empty whatever a consumer has stored in the first cache, and
    the second run leaves the first cache as it finds it. *)
Theorem native_cache_per_enumeration (self : Viv.VivisectFeatureExtractor.t)
    (h h' : gmap loc Obj) (n n' : loc) :
  (n < n')%nat →
  let run1 := Viv.VivisectFeatureExtractor.get_functions self (mkStore h n []) in
  let run2 := Viv.VivisectFeatureExtractor.get_functions self (mkStore h' n' []) in
  Forall (λ f1,
    Forall (λ f2,
      Viv.VivisectFeatureExtractor.Ctx.cache (FunctionHandle.ctx f1)
        ≠ Viv.VivisectFeatureExtractor.Ctx.cache (FunctionHandle.ctx f2)
      ∧ read_dict (heap run2.2)
          (Viv.VivisectFeatureExtractor.Ctx.cache (FunctionHandle.ctx f2)) = ∅
      ∧ heap run2.2 !! Viv.VivisectFeatureExtractor.Ctx.cache (FunctionHandle.ctx f1)
        = h' !! Viv.VivisectFeatureExtractor.Ctx.cache (FunctionHandle.ctx f1))
      (yielded (trace run2.2)))
    (yielded (trace run1.2)).
Proof.
  intros Hn. cbn zeta. rewrite !native_yielded.
  destruct (native_final_heap self h' n') as [-> _].
  destruct (decide _) as [_|_]; [|constructor].
  apply Forall_forall. intros f1 Hf1. apply Forall_forall. intros f2 Hf2.
  apply list_elem_of_fmap in Hf1 as (va1 & -> & _).
  apply list_elem_of_fmap in Hf2 as (va2 & -> & _).
  cbn [native_handle FunctionHandle.ctx Viv.VivisectFeatureExtractor.Ctx.cache].
  split; [lia|]. split.
  - unfold read_dict. by rewrite lookup_insert_eq.
  - rewrite lookup_insert_ne; [done | lia].
Qed.

Lemma native_cache_per_enumeration_witness :
  Forall (λ f1,
    Forall (λ f2,
      Viv.VivisectFeatureExtractor.Ctx.cache (FunctionHandle.ctx f1)
        ≠ Viv.VivisectFeatureExtractor.Ctx.cache (FunctionHandle.ctx f2)
      ∧ read_dict
          (heap (Viv.VivisectFeatureExtractor.get_functions native_sample
                   (mkStore {[0%nat := ODict {["seen"%string := 1]}]} 1%nat [])).2)
          (Viv.VivisectFeatureExtractor.Ctx.cache (FunctionHandle.ctx f2)) = ∅
      ∧ heap (Viv.VivisectFeatureExtractor.get_functions native_sample
                (mkStore {[0%nat := ODict {["seen"%string := 1]}]} 1%nat [])).2
          !! Viv.VivisectFeatureExtractor.Ctx.cache (FunctionHandle.ctx f1)
        = ({[0%nat := ODict {["seen"%string := 1]}]} : gmap loc Obj)
            !! Viv.VivisectFeatureExtractor.Ctx.cache (FunctionHandle.ctx f1))
      (yielded (trace (Viv.VivisectFeatureExtractor.get_functions native_sample
                         (mkStore {[0%nat := ODict {["seen"%string := 1]}]} 1%nat [])).2)))
    (yielded (trace (Viv.VivisectFeatureExtractor.get_functions native_sample
                       (mkStore ∅ 0%nat [])).2)).
Proof.
  apply (native_cache_per_enumeration native_sample ∅
           {[0%nat := ODict {["seen"%string := 1]}]} 0%nat 1%nat).
  lia.
Defined.

(** * The whole managed walk: functions, blocks, instructions *)

Lemma fmap_list_bind {A B C} (f : B → C) (g : A → list B) (l : list A) :
  f <$> (l ≫= g) = l ≫= (λ x, f <$> g x).
Proof. induction l as [|x l IH]; csimpl; [done|]. by rewrite fmap_app, IH. Qed.

Lemma managed_block_walk (fh : FH) :
  get_basic_blocks fh ≫= get_instructions fh
  = (λ insn,
       InsnHandle.mk
         (DNTokenOffsetAddress (FunctionHandle.address fh)
            (Instruction.offset insn
             - (CilMethodBody.offset (FunctionHandle.inner fh)
                + CilMethodBody.header_size (FunctionHandle.inner fh))))
         insn)
    <$> CilMethodBody.instructions (FunctionHandle.inner fh).
Proof. unfold get_basic_blocks, get_instructions. csimpl. by rewrite app_nil_r. Qed.

Lemma handles_from_bind {B} self n bodies (g : CilMethodBody.t → list B) :
  handles_from self n bodies ≫= (λ fh : FH, g (FunctionHandle.inner fh))
  = bodies ≫= (λ item, g item.2).
Proof. revert n. induction bodies as [|item rest IH]; intros n; csimpl; [done | by rewrite IH]. Qed.

(** X14. In a successful run, walking the yielded methods, the blocks of each
    and the instructions of each block visits every instruction of every
    method body once, body after body in the order of the enumeration and in
    the order of each body; and when no body has two instructions at one
    offset, no two instruction handles of the whole walk have the same
    address. *)
Theorem managed_walk_visits_every_instruction self (h : gmap loc Obj) (n : loc) :
  NoDup ((get_dotnet_managed_method_bodies (pe self)).*1) →
  Forall (λ item, NoDup (Instruction.offset <$> CilMethodBody.instructions item.2))
         (get_dotnet_managed_method_bodies (pe self)) →
  ∃ σ',
    get_functions self (mkStore h n []) = (Ok (), σ')
    ∧ InsnHandle.inner
        <$> (yielded (trace σ') ≫= λ fh, get_basic_blocks fh ≫= get_instructions fh)
      = get_dotnet_managed_method_bodies (pe self) ≫= (λ item, CilMethodBody.instructions item.2)
    ∧ NoDup (InsnHandle.address
               <$> (yielded (trace σ') ≫= λ fh, get_basic_blocks fh ≫= get_instructions fh)).
Proof.
  intros Hnd Hoffsets. set (bodies := get_dotnet_managed_method_bodies (pe self)) in *.
  destruct (get_functions_summary self h n Hnd) as (σ' & adds & Hrun & Ht & Hadds & _).
  cbn zeta in *. fold bodies in Ht.
  exists σ'. split; [done|]. rewrite Ht, (run_yielded _ _ _ Hadds).
  rewrite !fmap_list_bind.
  assert (NoDup (FunctionHandle.address <$> handles_from self n bodies)) as Haddr.
  { rewrite handles_from_address. by apply bodies_addresses_NoDup. }
  split.
  - rewrite <- (handles_from_bind self n bodies CilMethodBody.instructions).
    apply list_bind_ext; [|done]. intros fh.
    rewrite managed_block_walk, <- list_fmap_compose. apply list_fmap_id.
  - apply NoDup_bind; [| |by apply NoDup_fmap_1 in Haddr].
    + intros m1 m2 a Hm1 Hm2. rewrite !managed_block_walk, <- !list_fmap_compose.
      intros Ha1 Ha2. apply list_elem_of_fmap in Ha1 as (i1 & -> & _).
      apply list_elem_of_fmap in Ha2 as (i2 & [= Heq _] & _).
      by apply (NoDup_fmap_eq FunctionHandle.address _ _ _ Haddr Hm1 Hm2).
    + intros m Hm. rewrite managed_block_walk, <- list_fmap_compose.
      destruct (handles_from_elem self n bodies m Hm) as (tok & _ & Hin).
      rewrite Forall_forall in Hoffsets. specialize (Hoffsets _ Hin). cbn in Hoffsets.
      set (origin := CilMethodBody.offset (FunctionHandle.inner m)
                     + CilMethodBody.header_size (FunctionHandle.inner m)).
      assert (Inj (=) (=)
                (λ o, DNTokenOffsetAddress (FunctionHandle.address m) (o - origin))) as Hinj.
      { intros x y [= Heq]. lia. }
      apply (NoDup_fmap_2 (λ o, DNTokenOffsetAddress (FunctionHandle.address m) (o - origin)))
        in Hoffsets.
      by rewrite <- list_fmap_compose in Hoffsets.
Qed.

Lemma managed_walk_visits_every_instruction_witness :
  ∃ σ',
    get_functions scenario (mkStore ∅ 0%nat []) = (Ok (), σ')
    ∧ InsnHandle.inner
        <$> (yielded (trace σ') ≫= λ fh, get_basic_blocks fh ≫= get_instructions fh)
      = CilMethodBody.instructions method_A ++ CilMethodBody.instructions method_B
    ∧ NoDup (InsnHandle.address
               <$> (yielded (trace σ') ≫= λ fh, get_basic_blocks fh ≫= get_instructions fh)).
Proof.
  apply (managed_walk_visits_every_instruction scenario ∅ 0%nat).
  - apply (bool_decide_unpack _). vm_compute. exact I.
  - apply (bool_decide_unpack _). vm_compute. exact I.
Defined.
